(** * StockPulse: the data-access functions of [utils.py]

    A shallow embedding of [get_world_indices], [get_top_movers],
    [search_stock] and [get_stock_data], and the properties the
    specification states about them.

    Modelling conventions.
    - The market data provider ([yfinance]) is a black box.  It is modelled
      as a pair of oracles that answer a call given the list of all calls
      made earlier, so that a provider may answer the same ticker
      differently at different moments.  An answer is either a value or an
      exception ([Fails]).
    - Python exceptions are explicit: a computation ends in [Ret a] or in
      [Raise e].  [try_except] is the [try: ... except Exception: ...]
      statement.  Exceptions outside the [Exception] hierarchy
      ([KeyboardInterrupt], [SystemExit]) are outside the model.
    - Local variables that the source mutates in place ([results],
      [seen_symbols], [gainers], [losers], [data]) live in the state of the
      monad, next to the log of provider calls; a mutation made before an
      exception survives the exception, as in Python.
    - The closes that the provider reports are exact rationals [Q]; the
      floating-point rounding of the arithmetic on them is not modelled.
      A division by a previous close of zero gives, as for numpy floats,
      an infinity or NaN: a change% is a [num].  The strings the source
      renders with f-strings ([f"{change:+,.2f}"]) are kept as the number
      that is rendered.
    - [str] values are strings of ASCII characters; [upper], [lower] and
      [split] are Python's on such strings.  On a character outside ASCII
      Python's methods follow Unicode and the maps here leave it as it is:
      the properties that depend on the result of [upper] or [lower] for
      an arbitrary text are stated for ASCII text. *)

From Stdlib Require Import Ascii String QArith Sorted Permutation Lia.
From stdpp Require Import base option list sorting strings gmap sets.

Local Open Scope string_scope.
Local Open Scope list_scope.

(** ** Python runtime: outcomes, calls, the provider *)

Inductive exn : Type :=
  | ProviderError   (* anything raised inside yfinance *)
  | IndexError
  | KeyError
  | TypeError.

Inductive outcome (A : Type) : Type :=
  | Ret (a : A)
  | Raise (e : exn).
Arguments Ret {A} a.
Arguments Raise {A} e.

(** One trading session of a price history ([DataFrame] row). *)
Record Bar : Type := mkBar {
  Open : Q; High : Q; Low : Q; Close : Q; Volume : Z
}.

Definition DataFrame : Type := list Bar.

(** [stock.info]: [None], or a dict.  Only string-valued fields are read. *)
Definition Info : Type := option (gmap string string).

(** The outbound calls.  [interval = None] is a call that leaves the
    keyword out ([history(period='2d')]). *)
Inductive Call : Type :=
  | CallHistory (symbol period : string) (interval : option string)
  | CallInfo (symbol : string).

Inductive reply (A : Type) : Type :=
  | Fails
  | Gives (a : A).
Arguments Fails {A}.
Arguments Gives {A} a.

(** The first argument of an oracle is the log of the calls made before
    this one, oldest first. *)
Record Provider : Type := mkProvider {
  history_of : list Call -> string -> string -> option string -> reply DataFrame;
  info_of : list Call -> string -> reply Info
}.

(** ** The state and exception monad *)

Section Monad.
Context {L : Type}.

(** [L] is the frame of local variables of the function being run. *)
Definition M (A : Type) : Type := list Call * L -> outcome A * (list Call * L).

Definition ret {A} (a : A) : M A := fun s => (Ret a, s).

Definition raise {A} (e : exn) : M A := fun s => (Raise e, s).

Definition bind {A B} (c : M A) (k : A -> M B) : M B :=
  fun s => match c s with
           | (Ret a, s') => k a s'
           | (Raise e, s') => (Raise e, s')
           end.

Definition try_except {A} (body : M A) (handler : exn -> M A) : M A :=
  fun s => match body s with
           | (Ret a, s') => (Ret a, s')
           | (Raise e, s') => handler e s'
           end.

Definition gets {A} (f : L -> A) : M A := fun s => (Ret (f (snd s)), s).

Definition modify (f : L -> L) : M unit := fun s => (Ret tt, (fst s, f (snd s))).

(** [for x in l: body x] *)
Fixpoint for_ {A} (l : list A) (body : A -> M unit) : M unit :=
  match l with
  | [] => ret tt
  | x :: l' => bind (body x) (fun _ => for_ l' body)
  end.

(** [yf.Ticker(symbol).history(period=..., interval=...)] *)
Definition call_history (pv : Provider) (symbol period : string)
    (interval : option string) : M DataFrame :=
  fun s => (match history_of pv (fst s) symbol period interval with
            | Gives h => Ret h
            | Fails => Raise ProviderError
            end,
            (fst s ++ [CallHistory symbol period interval], snd s)).

(** [yf.Ticker(symbol).info] *)
Definition call_info (pv : Provider) (symbol : string) : M Info :=
  fun s => (match info_of pv (fst s) symbol with
            | Gives i => Ret i
            | Fails => Raise ProviderError
            end,
            (fst s ++ [CallInfo symbol], snd s)).

(** [a and b], where [b] is evaluated only when [a] is true. *)
Definition and_then (a : M bool) (b : M bool) : M bool :=
  bind a (fun x => if x then b else ret false).

(** Truth value of [info]: [None] and the empty dict are false. *)
Definition truthy (info : Info) : bool :=
  match info with
  | Some d => negb (bool_decide (d = ∅))
  | None => false
  end.

(** [key in info] *)
Definition contains_key (key : string) (info : Info) : M bool :=
  match info with
  | Some d => ret (bool_decide (is_Some (d !! key)))
  | None => raise TypeError
  end.

(** [info[key]] *)
Definition getitem (info : Info) (key : string) : M string :=
  match info with
  | Some d => match d !! key with
              | Some v => ret v
              | None => raise KeyError
              end
  | None => raise TypeError
  end.

(** [series.iloc[-k]] for [k >= 1] *)
Definition iloc_neg {A} (series : list A) (k : nat) : M A :=
  match reverse series !! (k - 1)%nat with
  | Some x => ret x
  | None => raise IndexError
  end.
End Monad.

Arguments M : clear implicits.

Declare Scope py_scope.
Delimit Scope py_scope with py.
Notation "x <- c ;; k" := (bind c (fun x => k))
  (at level 100, c at next level, right associativity) : py_scope.
Notation "c ;;; k" := (bind c (fun _ => k))
  (at level 100, right associativity) : py_scope.

(** Runs a function body from an initial frame and returns what the caller
    sees: the outcome and the log of provider calls. *)
Definition run {L A} (body : M L A) (frame : L) (log : list Call)
    : outcome A * list Call :=
  let '(r, (log', _)) := body (log, frame) in (r, log').

(** ** Strings, following Python's [str] on ASCII *)

Definition is_lower_ascii (c : ascii) : bool :=
  let n := nat_of_ascii c in (97 <=? n)%nat && (n <=? 122)%nat.

Definition is_upper_ascii (c : ascii) : bool :=
  let n := nat_of_ascii c in (65 <=? n)%nat && (n <=? 90)%nat.

Definition upper_ascii (c : ascii) : ascii :=
  if is_lower_ascii c then ascii_of_nat (nat_of_ascii c - 32) else c.

Definition lower_ascii (c : ascii) : ascii :=
  if is_upper_ascii c then ascii_of_nat (nat_of_ascii c + 32) else c.

Fixpoint map_string (f : ascii -> ascii) (s : string) : string :=
  match s with
  | EmptyString => EmptyString
  | String c s' => String (f c) (map_string f s')
  end.

(** [s.upper()] and [s.lower()] of a text of ASCII characters.  A
    character outside ASCII is left as it is, where Python follows
    Unicode. *)
Definition upper (s : string) : string := map_string upper_ascii s.
Definition lower (s : string) : string := map_string lower_ascii s.

(** [s.replace(" ", new)] *)
Fixpoint replace_space (new : string) (s : string) : string :=
  match s with
  | EmptyString => EmptyString
  | String c s' =>
      if Ascii.eqb c " " then new +:+ replace_space new s'
      else String c (replace_space new s')
  end.

(** [str.isspace] on one ASCII character: TAB..CR, FS..US and space. *)
Definition is_space_ascii (c : ascii) : bool :=
  let n := nat_of_ascii c in
  ((9 <=? n)%nat && (n <=? 13)%nat) || ((28 <=? n)%nat && (n <=? 32)%nat).

(** [s.split()]: maximal runs of non-space characters.  [word] is the run
    being read, in reverse. *)
Fixpoint split_go (word : list ascii) (s : string) : list string :=
  let flush := match word with
               | [] => []
               | _ => [string_of_list_ascii (reverse word)]
               end in
  match s with
  | EmptyString => flush
  | String c s' =>
      if is_space_ascii c then flush ++ split_go [] s'
      else split_go (c :: word) s'
  end.

Definition split (s : string) : list string := split_go [] s.

(** [word.capitalize()] *)
Definition capitalize (word : string) : string :=
  match word with
  | EmptyString => EmptyString
  | String c rest => String (upper_ascii c) (lower rest)
  end.

(** [sep.join(words)] *)
Fixpoint join (sep : string) (words : list string) : string :=
  match words with
  | [] => ""
  | [w] => w
  | w :: ws => w +:+ sep +:+ join sep ws
  end.

(** [needle in hay] *)
Fixpoint substring_of (needle hay : string) : bool :=
  String.prefix needle hay ||
  match hay with
  | EmptyString => false
  | String _ hay' => substring_of needle hay'
  end.

Local Open Scope py_scope.

(** ** [get_world_indices] (utils.py, lines 6-43) *)

(** The [indices] dict; a dict is iterated in insertion order. *)
Definition indices : list (string * string) :=
  [ ("^GSPC", "S&P 500"); ("^DJI", "Dow Jones"); ("^IXIC", "NASDAQ");
    ("^FTSE", "FTSE 100"); ("^N225", "Nikkei 225"); ("^HSI", "Hang Seng");
    ("^GDAXI", "DAX"); ("^FCHI", "CAC 40") ].

(** [x > 0] on numbers *)
Definition Qgt0 (x : Q) : bool := negb (Qle_bool x 0).

(** A float that a division may have produced: a number, an infinity or
    NaN. *)
Inductive num : Type :=
  | Finite (q : Q)
  | PlusInf
  | MinusInf
  | NaN.

(** [x / y] on numpy floats: a division by zero does not raise, it gives
    an infinity with the sign of [x], and NaN for [0 / 0]. *)
Definition fdiv (x y : Q) : num :=
  if Qeq_bool y 0 then
    if Qgt0 x then PlusInf else if Qgt0 (- x) then MinusInf else NaN
  else Finite (x / y).

(** [x * 100] *)
Definition times100 (x : num) : num :=
  match x with
  | Finite q => Finite (q * 100)
  | PlusInf => PlusInf
  | MinusInf => MinusInf
  | NaN => NaN
  end.

(** [x > 0]: false for NaN. *)
Definition num_gt0 (x : num) : bool :=
  match x with
  | Finite q => Qgt0 q
  | PlusInf => true
  | MinusInf => false
  | NaN => false
  end.

(** [x < y]: false when either side is NaN. *)
Definition num_ltb (x y : num) : bool :=
  match x, y with
  | NaN, _ | _, NaN => false
  | Finite a, Finite b => negb (Qle_bool b a)
  | MinusInf, MinusInf => false
  | MinusInf, _ => true
  | PlusInf, _ => false
  | Finite _, PlusInf => true
  | Finite _, MinusInf => false
  end.

(** One dict appended to [data]. *)
Record IndexRow : Type := mkIndexRow {
  ix_Index : string;
  ix_Price : Q;
  ix_Change : Q;
  ix_ChangePct : num;
  ix_Change_Color : string
}.

(** Lines 23-41: the body of the loop for one entry of the dict. *)
Definition index_step (pv : Provider) (entry : string * string)
    : M (list IndexRow) unit :=
  let '(symbol, name) := entry in
  try_except
    (hist <- call_history pv symbol "2d" None ;;
     if (2 <=? length hist)%nat then
       current <- iloc_neg (Close <$> hist) 1 ;;
       prev_close <- iloc_neg (Close <$> hist) 2 ;;
       let change := (current - prev_close)%Q in
       let change_pct := times100 (fdiv change prev_close) in
       modify (fun data =>
         data ++ [ {| ix_Index := name;
                      ix_Price := current;
                      ix_Change := change;
                      ix_ChangePct := change_pct;
                      ix_Change_Color :=
                        if num_gt0 change_pct then "green" else "red" |} ])
     else ret tt)
    (fun _ => ret tt).

(** Lines 21-43 over an arbitrary table of indices. *)
Definition snapshot (pv : Provider) (table : list (string * string))
    (log : list Call) : outcome (list IndexRow) * list Call :=
  run (for_ table (index_step pv) ;;; gets (fun data => data)) [] log.

Definition get_world_indices (pv : Provider) (log : list Call)
    : outcome (list IndexRow) * list Call :=
  snapshot pv indices log.

(** ** [get_top_movers] (utils.py, lines 45-96) *)

Definition stocks : list string :=
  [ "AAPL"; "MSFT"; "GOOGL"; "AMZN"; "NVDA"; "META"; "TSLA"; "JPM";
    "V"; "WMT"; "PG"; "MA"; "UNH"; "HD"; "BAC"; "XOM"; "PFE"; "DIS";
    "NFLX"; "COIN"; "AMD"; "INTC"; "CSCO"; "VZ"; "T"; "PEP"; "KO";
    "ADBE"; "CRM"; "ORCL" ].

Record MoverRow : Type := mkMoverRow {
  mv_Symbol : string;
  mv_Name : string;
  mv_Price : Q;
  mv_Change : Q;
  mv_ChangePct : num;
  mv_Change_Color : string
}.

Record MoversFrame : Type := mkMoversFrame {
  gainers : list (num * MoverRow);
  losers : list (num * MoverRow)
}.

(** Lines 61-87: the body of the loop for one symbol. *)
Definition mover_step (pv : Provider) (symbol : string) : M MoversFrame unit :=
  try_except
    (hist <- call_history pv symbol "2d" None ;;
     info <- call_info pv symbol ;;
     ok <- and_then (ret (2 <=? length hist)%nat)
             (and_then (ret (truthy info)) (contains_key "longName" info)) ;;
     if ok then
       current <- iloc_neg (Close <$> hist) 1 ;;
       prev_close <- iloc_neg (Close <$> hist) 2 ;;
       let change := (current - prev_close)%Q in
       let change_pct := times100 (fdiv change prev_close) in
       longName <- getitem info "longName" ;;
       let data := {| mv_Symbol := symbol;
                      mv_Name := longName;
                      mv_Price := current;
                      mv_Change := change;
                      mv_ChangePct := change_pct;
                      mv_Change_Color :=
                        if num_gt0 change_pct then "green" else "red" |} in
       if num_gt0 change_pct then
         modify (fun f => {| gainers := gainers f ++ [(change_pct, data)];
                             losers := losers f |})
       else
         modify (fun f => {| gainers := gainers f;
                             losers := losers f ++ [(change_pct, data)] |})
     else ret tt)
    (fun _ => ret tt).

(** ** [sorted] on a list of (key, row) pairs

    CPython sorts a list shorter than 64 elements, which the 30 symbols of
    the watchlist ensure, in two steps: it takes the run the list starts
    with, reversed when it is strictly descending, and inserts the elements
    after it one by one by binary search.  Keys are compared with [<] only.
    On keys that [<] orders the result is the one stable sort of the list,
    whatever its length.  With a NaN key, which compares false with every
    key, the result is still a rearrangement of the list, but it need not
    be in order. *)
Section ListSort.
Context {A : Type}.

(** [x[0] < y[0]] *)
Definition key_lt (x y : num * A) : bool := num_ltb (fst x) (fst y).

(** How many elements of [l] continue a run that ends in [prev]: a run
    that does not descend, which [count_run] ends at the first element
    less than the one before it. *)
Fixpoint run_ascending (prev : num * A) (l : list (num * A)) : nat :=
  match l with
  | [] => 0
  | x :: l' => if key_lt x prev then 0 else S (run_ascending x l')
  end.

(** The same for a strictly descending run. *)
Fixpoint run_descending (prev : num * A) (l : list (num * A)) : nat :=
  match l with
  | [] => 0
  | x :: l' => if key_lt x prev then S (run_descending x l') else 0
  end.

(** [count_run]: the length of the run at the head of [l], and whether it
    is strictly descending. *)
Definition count_run (l : list (num * A)) : nat * bool :=
  match l with
  | [] => (0%nat, false)
  | [x] => (1%nat, false)
  | x :: y :: l' =>
      if key_lt y x then (S (S (run_descending y l')), true)
      else (S (S (run_ascending y l')), false)
  end.

(** The binary search of [binarysort] for the place of [pivot] in
    [run[l:r]]: [p = l + ((r - l) >> 1)], then [r = p] when
    [pivot < run[p]] and [l = p + 1] otherwise, until [l] meets [r].  Each
    round shrinks [r - l], so [r - l] rounds are enough. *)
Fixpoint bisect (rounds : nat) (pivot : num * A) (run : list (num * A))
    (l r : nat) : nat :=
  match rounds with
  | O => l
  | S rounds' =>
      if decide (l < r)%nat then
        let p := (l + Nat.div2 (r - l))%nat in
        match run !! p with
        | Some y => if key_lt pivot y then bisect rounds' pivot run l p
                    else bisect rounds' pivot run (S p) r
        | None => l
        end
      else l
  end.

(** One round of [binarysort]: [pivot] is moved to its place in the sorted
    [run] before it. *)
Definition binary_insert (run : list (num * A)) (pivot : num * A)
    : list (num * A) :=
  let i := bisect (length run) pivot run 0 (length run) in
  take i run ++ pivot :: drop i run.

(** The sort of a list of one run. *)
Definition list_sort (l : list (num * A)) : list (num * A) :=
  let '(n, descending) := count_run l in
  let run := if descending then reverse (take n l) else take n l in
  foldl binary_insert run (drop n l).

(** [sorted(l, key=lambda x: x[0])] *)
Definition sorted_asc (l : list (num * A)) : list (num * A) := list_sort l.

(** [sorted(l, key=lambda x: x[0], reverse=True)]: the list is reversed,
    sorted and reversed again, so that elements with equal keys keep their
    original order. *)
Definition sorted_desc (l : list (num * A)) : list (num * A) :=
  reverse (list_sort (reverse l)).
End ListSort.

(** Lines 49-96 over an arbitrary watchlist; [l[:10]] is [take 10 l]. *)
Definition rank (pv : Provider) (watchlist : list string) (log : list Call)
    : outcome (list MoverRow * list MoverRow) * list Call :=
  run (for_ watchlist (mover_step pv) ;;;
       gainers' <- gets (fun f => sorted_desc (gainers f)) ;;
       losers' <- gets (fun f => sorted_asc (losers f)) ;;
       let top_gainers := snd <$> take 10 gainers' in
       let top_losers := snd <$> take 10 losers' in
       ret (top_gainers, top_losers))
      {| gainers := []; losers := [] |} log.

Definition get_top_movers (pv : Provider) (log : list Call)
    : outcome (list MoverRow * list MoverRow) * list Call :=
  rank pv stocks log.

(** ** [search_stock] (utils.py, lines 98-177) *)

Definition Candidate : Type := (string * string)%type.

Record SearchFrame : Type := mkSearchFrame {
  results : list Candidate;
  seen_symbols : gset string
}.

(** Lines 104-111, tier 1.  [Some r] is the [return r] of line 109; [None]
    is falling out of the [try] statement. *)
Definition direct_lookup (pv : Provider) (query : string)
    : M SearchFrame (option (list Candidate)) :=
  try_except
    (info <- call_info pv query ;;
     ok <- and_then (ret (truthy info))
             (and_then (contains_key "longName" info)
                       (contains_key "symbol" info)) ;;
     if ok then
       symbol <- getitem info "symbol" ;;
       longName <- getitem info "longName" ;;
       ret (Some [(symbol, longName)])
     else ret None)
    (fun _ => ret None).

(** Lines 114-121. *)
Definition variations (query : string) : list string :=
  [ query;
    upper query;
    replace_space "-" query;
    replace_space "" query;
    lower query;
    join " " (capitalize <$> split query) ].

Definition suffixes : list string := [""; ".DE"; ".L"; ".PA"; ".MI"; ".MC"].

(** Lines 133-140: one probe of tier 2. *)
Definition probe (pv : Provider) (ticker : string) : M SearchFrame unit :=
  info <- call_info pv ticker ;;
  ok <- and_then (ret (truthy info))
          (and_then (contains_key "longName" info)
                    (contains_key "symbol" info)) ;;
  if ok then
    symbol <- getitem info "symbol" ;;
    seen <- gets seen_symbols ;;
    if bool_decide (symbol ∉ seen) then
      modify (fun f => {| results := results f;
                          seen_symbols := {[ symbol ]} ∪ seen_symbols f |}) ;;;
      longName <- getitem info "longName" ;;
      modify (fun f => {| results := results f ++ [(symbol, longName)];
                          seen_symbols := seen_symbols f |})
    else ret tt
  else ret tt.

(** Lines 126-147, tier 2. *)
Definition variation_sweep (pv : Provider) (query : string) : M SearchFrame unit :=
  for_ (variations query) (fun variation =>
    try_except
      (for_ suffixes (fun suffix =>
         try_except (probe pv (variation +:+ suffix)) (fun _ => ret tt)))
      (fun _ => ret tt)).

(** Lines 151-160; a dict is iterated in insertion order. *)
Definition common_stocks : list (string * string) :=
  [ ("AAPL", "Apple"); ("MSFT", "Microsoft"); ("GOOGL", "Google");
    ("AMZN", "Amazon"); ("NVDA", "NVIDIA"); ("META", "Meta");
    ("TSLA", "Tesla"); ("NFLX", "Netflix") ].

(** Lines 164-172: the body of the tier-3 loop for one table entry. *)
Definition fallback_step (pv : Provider) (query_lower : string)
    (entry : string * string) : M SearchFrame unit :=
  let '(symbol, name) := entry in
  if substring_of query_lower (lower name) then
    try_except
      (info <- call_info pv symbol ;;
       ok <- and_then (ret (truthy info)) (contains_key "longName" info) ;;
       if ok then
         longName <- getitem info "longName" ;;
         modify (fun f => {| results := results f ++ [(symbol, longName)];
                             seen_symbols := seen_symbols f |})
       else ret tt)
      (fun _ => ret tt)
  else ret tt.

(** Lines 162-172, tier 3. *)
Definition fallback (pv : Provider) (query : string) : M SearchFrame unit :=
  let query_lower := lower query in
  for_ common_stocks (fallback_step pv query_lower).

(** Lines 102-177. *)
Definition search_stock_body (pv : Provider) (query : string)
    : M SearchFrame (list Candidate) :=
  try_except
    (direct <- direct_lookup pv query ;;
     match direct with
     | Some r => ret r
     | None =>
         variation_sweep pv query ;;;
         found <- gets results ;;
         (match found with
          | [] => fallback pv query
          | _ => ret tt
          end) ;;;
         gets results
     end)
    (fun _ => ret []).

Definition search_stock (pv : Provider) (query : string) (log : list Call)
    : outcome (list Candidate) * list Call :=
  run (search_stock_body pv query) {| results := []; seen_symbols := ∅ |} log.

(** ** [get_stock_data] (utils.py, lines 179-195) *)

(** [period in ['1d', '5d']] *)
Definition intraday (period : string) : bool :=
  bool_decide (period ∈ ["1d"; "5d"]).

Definition get_stock_data (pv : Provider) (symbol period : string)
    (log : list Call) : outcome (option DataFrame * Info) * list Call :=
  run (L := unit)
      (try_except
         (let interval := if intraday period then "1m" else "1d" in
          hist <- call_history pv symbol period (Some interval) ;;
          info <- call_info pv symbol ;;
          ret (Some hist, info))
         (fun _ => ret (None, None)))
      tt log.

(** ** What one provider answer contributes *)

(** The row that [index_step] builds from the two most recent sessions. *)
Definition index_row (name : string) (prev_close current : Q) : IndexRow :=
  let change := (current - prev_close)%Q in
  let change_pct := times100 (fdiv change prev_close) in
  {| ix_Index := name;
     ix_Price := current;
     ix_Change := change;
     ix_ChangePct := change_pct;
     ix_Change_Color := if num_gt0 change_pct then "green" else "red" |}.

(** The two most recent sessions of a history, when it has them. *)
Definition last_two (hist : DataFrame) : option (Bar * Bar) :=
  match reverse hist with
  | latest :: previous :: _ => Some (previous, latest)
  | _ => None
  end.

Definition index_quote (name : string) (answer : reply DataFrame)
    : option IndexRow :=
  match answer with
  | Gives hist =>
      '(previous, latest) ← last_two hist;
      Some (index_row name (Close previous) (Close latest))
  | Fails => None
  end.

(** The history call that [index_step] and [mover_step] make. *)
Definition history_call (symbol : string) : Call := CallHistory symbol "2d" None.

(** The rows of a table of indices, each index asked after the ones before
    it. *)
Fixpoint index_quotes (pv : Provider) (log : list Call)
    (table : list (string * string)) : list IndexRow :=
  match table with
  | [] => []
  | (symbol, name) :: rest =>
      option_list (index_quote name (history_of pv log symbol "2d" None))
      ++ index_quotes pv (log ++ [history_call symbol]) rest
  end.

(** The row that [mover_step] builds from the two most recent sessions. *)
Definition mover_row (symbol longName : string) (prev_close current : Q)
    : MoverRow :=
  let change := (current - prev_close)%Q in
  let change_pct := times100 (fdiv change prev_close) in
  {| mv_Symbol := symbol;
     mv_Name := longName;
     mv_Price := current;
     mv_Change := change;
     mv_ChangePct := change_pct;
     mv_Change_Color := if num_gt0 change_pct then "green" else "red" |}.

Definition mover_quote (symbol : string) (hist : reply DataFrame)
    (info : reply Info) : option MoverRow :=
  match hist, info with
  | Gives hist, Gives (Some d) =>
      '(previous, latest) ← last_two hist;
      longName ← d !! "longName";
      Some (mover_row symbol longName (Close previous) (Close latest))
  | _, _ => None
  end.

(** The calls of one [mover_step]: [stock.info] is read only when
    [stock.history] returned. *)
Definition mover_calls (pv : Provider) (log : list Call) (symbol : string)
    : list Call :=
  history_call symbol ::
  match history_of pv log symbol "2d" None with
  | Gives _ => [CallInfo symbol]
  | Fails => []
  end.

(** What one watchlist symbol contributes, asked at [log]. *)
Definition mover_quote_at (pv : Provider) (log : list Call) (symbol : string)
    : option MoverRow :=
  mover_quote symbol (history_of pv log symbol "2d" None)
                     (info_of pv (log ++ [history_call symbol]) symbol).

(** The rows and the calls of a watchlist, each symbol asked after the ones
    before it. *)
Fixpoint mover_quotes (pv : Provider) (log : list Call)
    (watchlist : list string) : list MoverRow :=
  match watchlist with
  | [] => []
  | symbol :: rest =>
      option_list (mover_quote_at pv log symbol)
      ++ mover_quotes pv (log ++ mover_calls pv log symbol) rest
  end.

Fixpoint watchlist_calls (pv : Provider) (log : list Call)
    (watchlist : list string) : list Call :=
  match watchlist with
  | [] => []
  | symbol :: rest =>
      mover_calls pv log symbol
      ++ watchlist_calls pv (log ++ mover_calls pv log symbol) rest
  end.

Definition is_gainer (r : MoverRow) : bool := num_gt0 (mv_ChangePct r).

(** The pair [(change_pct, data)] that is appended for a row. *)
Definition keyed (r : MoverRow) : num * MoverRow := (mv_ChangePct r, r).

Definition add_mover (row : option MoverRow) (f : MoversFrame) : MoversFrame :=
  match row with
  | None => f
  | Some r =>
      if is_gainer r
      then {| gainers := gainers f ++ [keyed r]; losers := losers f |}
      else {| gainers := gainers f; losers := losers f ++ [keyed r] |}
  end.

(** Pairs compared by their keys. *)
Definition by_key {A} (R : num -> num -> Prop) : relation (num * A) :=
  fun p q => R (fst p) (fst q).

(** [x <= y] on floats: NaN is not related to anything. *)
Definition num_le (x y : num) : Prop :=
  match x, y with
  | NaN, _ | _, NaN => False
  | MinusInf, _ => True
  | _, PlusInf => True
  | Finite a, Finite b => (a <= b)%Q
  | _, _ => False
  end.

(** [x > 0] on floats. *)
Definition num_pos (x : num) : Prop :=
  match x with
  | Finite q => (0 < q)%Q
  | PlusInf => True
  | MinusInf | NaN => False
  end.

(** Equality of floats as numbers; NaN is set apart from every number. *)
Definition num_eq (x y : num) : Prop :=
  match x, y with
  | Finite a, Finite b => (a == b)%Q
  | PlusInf, PlusInf | MinusInf, MinusInf | NaN, NaN => True
  | _, _ => False
  end.

(** Rows in descending and in ascending order of change%. *)
Definition descending : relation MoverRow :=
  fun a b => num_le (mv_ChangePct b) (mv_ChangePct a).

Definition ascending : relation MoverRow :=
  fun a b => num_le (mv_ChangePct a) (mv_ChangePct b).

(** ** Providers used in the examples *)

(** A session that opened, stayed and closed at one price. *)
Definition session (close : Q) : Bar := mkBar close close close close 0.

(** A record with a display name and a resolved symbol. *)
Definition full_record (symbol longName : string) : Info :=
  Some {[ "symbol" := symbol; "longName" := longName ]}.

(** A record with a display name and no resolved symbol. *)
Definition name_only_record (longName : string) : Info :=
  Some {[ "longName" := longName ]}.

(** A provider that raises on every call. *)
Definition unreachable_provider : Provider :=
  mkProvider (fun _ _ _ _ => Fails) (fun _ _ => Fails).

(** A provider that answers from a book of closes and records, whatever was
    asked before, and raises on a ticker that is not in the book. *)
Definition book_provider (book : gmap string (list Q * Info)) : Provider :=
  mkProvider
    (fun _ symbol _ _ =>
       match book !! symbol with
       | Some (closes, _) => Gives (session <$> closes)
       | None => Fails
       end)
    (fun _ symbol =>
       match book !! symbol with
       | Some (_, info) => Gives info
       | None => Fails
       end).

(** A provider that gives every ticker the same closes and the same
    record. *)
Definition uniform_provider (closes : list Q) (info : Info) : Provider :=
  mkProvider (fun _ _ _ _ => Gives (session <$> closes)) (fun _ _ => Gives info).

(** Four watchlist symbols moving by +5%, -3%, +8% and -1%; the others
    cannot be fetched. *)
Definition four_movers : Provider :=
  book_provider
    {[ "AAPL" := ([100%Q; 105%Q], full_record "AAPL" "Apple Inc.");
       "MSFT" := ([100%Q; 97%Q], full_record "MSFT" "Microsoft Corporation");
       "GOOGL" := ([100%Q; 108%Q], full_record "GOOGL" "Alphabet Inc.");
       "AMZN" := ([100%Q; 99%Q], full_record "AMZN" "Amazon.com, Inc.") ]}.

(** ** What one provider answer contributes to a search *)

(** The candidate of a record that has both a display name and a resolved
    symbol: the test of tiers 1 and 2. *)
Definition complete_record (answer : reply Info) : option Candidate :=
  match answer with
  | Gives (Some d) =>
      longName ← d !! "longName";
      symbol ← d !! "symbol";
      Some (symbol, longName)
  | _ => None
  end.

(** The display name of a record that has one: the test of tier 3. *)
Definition named_record (answer : reply Info) : option string :=
  match answer with
  | Gives (Some d) => d !! "longName"
  | _ => None
  end.

(** The frame of [search_stock] before any probe. *)
Definition no_results : SearchFrame := {| results := []; seen_symbols := ∅ |}.

(** The frame after a tier-2 probe that was answered with [candidate]. *)
Definition add_candidate (candidate : option Candidate) (f : SearchFrame)
    : SearchFrame :=
  match candidate with
  | Some (symbol, longName) =>
      if bool_decide (symbol ∉ seen_symbols f)
      then {| results := results f ++ [(symbol, longName)];
              seen_symbols := {[ symbol ]} ∪ seen_symbols f |}
      else f
  | None => f
  end.

(** The tickers that tier 2 probes, in order. *)
Definition sweep_tickers (query : string) : list string :=
  variation ← variations query; suffix ← suffixes; [variation +:+ suffix].

(** The frame after probing [tickers] in turn. *)
Fixpoint sweep_frame (pv : Provider) (log : list Call) (tickers : list string)
    (f : SearchFrame) : SearchFrame :=
  match tickers with
  | [] => f
  | ticker :: rest =>
      sweep_frame pv (log ++ [CallInfo ticker]) rest
        (add_candidate (complete_record (info_of pv log ticker)) f)
  end.

(** Whether the company name of a table entry contains the lower-cased
    query, case-insensitively. *)
Definition name_matches (query : string) (entry : string * string) : bool :=
  substring_of (lower query) (lower (snd entry)).

(** The tickers that tier 3 asks again: those of the matching entries. *)
Definition fallback_tickers (query : string) (table : list (string * string))
    : list string :=
  fst <$> filter (fun entry => name_matches query entry = true) table.

(** The candidates of tier 3, each matching entry asked after the matching
    entries before it. *)
Fixpoint fallback_rows (pv : Provider) (log : list Call) (query : string)
    (table : list (string * string)) : list Candidate :=
  match table with
  | [] => []
  | (symbol, name) :: rest =>
      if name_matches query (symbol, name) then
        match named_record (info_of pv log symbol) with
        | Some longName => [(symbol, longName)]
        | None => []
        end ++ fallback_rows pv (log ++ [CallInfo symbol]) query rest
      else fallback_rows pv log query rest
  end.

(** Tier 1 and tier 2, each run on its own from the frame without
    results. *)
Definition tier1 (pv : Provider) (query : string) (log : list Call)
    : outcome (option (list Candidate)) * list Call :=
  run (direct_lookup pv query) no_results log.

Definition tier2 (pv : Provider) (query : string) (log : list Call)
    : outcome (list Candidate) * list Call :=
  run (variation_sweep pv query ;;; gets results) no_results log.

(** What the sweep keeps true of its frame: no symbol twice in [results],
    and every symbol of [results] in [seen_symbols]. *)
Definition deduplicated (f : SearchFrame) : Prop :=
  NoDup (fst <$> results f) /\
  forall symbol, symbol ∈ fst <$> results f -> symbol ∈ seen_symbols f.

(** A provider that knows the one ticker AAPL and answers it with a record
    whose resolved symbol is another listing. *)
Definition other_listing : Provider :=
  book_provider {[ "AAPL" := ([], full_record "AAPL.MX" "Apple Inc.") ]}.

(** A provider that resolves the tickers AAPL and AAPL.DE to the same
    symbol. *)
Definition two_listings : Provider :=
  book_provider
    {[ "AAPL" := ([], full_record "AAPL" "Apple Inc.");
       "AAPL.DE" := ([], full_record "AAPL" "Apple Inc.") ]}.


(** ** Further definitions: calls, strings *)

Definition is_info_call (c : Call) : bool :=
  match c with CallInfo _ => true | CallHistory _ _ _ => false end.

Definition is_history_call (c : Call) : bool :=
  match c with CallHistory _ _ _ => true | CallInfo _ => false end.

(** The characters of a string. *)
Definition chars (s : string) : list ascii := list_ascii_of_string s.

(** A string without the space character. *)
Definition space_free (s : string) : Prop := " "%char ∉ chars s.

(** What the sweep keeps true of [seen_symbols]: it holds symbols of
    [results] only. *)
Definition recorded (f : SearchFrame) : Prop :=
  forall symbol, symbol ∈ seen_symbols f -> symbol ∈ fst <$> results f.

(** ** app.py, lines 145-157: the candidate that is shown *)

(** The text of one option of the select box: [f"{symbol} - {name}"]. *)
Definition option_label (c : Candidate) : string := fst c +:+ " - " +:+ snd c.

(** A dict built from pairs, as [dict(pairs)] and a dict comprehension
    build it: a later pair replaces an earlier pair with the same key. *)
Definition dict_of {V} (pairs : list (string * V)) : gmap string V :=
  list_to_map (reverse pairs).

(** Lines 145-157.  [selected] is what [st.selectbox] returns; [Ret None]
    is the branch that shows "No matching stocks found". *)
Definition choose_candidate (results : list Candidate) (selected : string)
    : outcome (option Candidate) :=
  match results with
  | [] => Ret None
  | [(symbol, company_name)] => Ret (Some (symbol, company_name))
  | _ =>
      let options := dict_of ((fun c => (option_label c, fst c)) <$> results) in
      match options !! selected with
      | None => Raise KeyError
      | Some symbol =>
          match dict_of results !! symbol with
          | None => Raise KeyError
          | Some company_name => Ret (Some (symbol, company_name))
          end
      end
  end.

(** ** [format_large_number] and [prepare_metrics_data] (utils.py, lines
    262-286) *)

(** The values of the numeric fields of [stock.info]: a number, or [None]
    when the provider has no figure.  Fields that hold text are not read
    by these functions. *)
Inductive pyval : Type :=
  | PyNone
  | PyNum (x : Q).

(** Sequencing of computations that may raise. *)
Definition and_next {A B} (c : outcome A) (k : A -> outcome B) : outcome B :=
  match c with
  | Ret a => k a
  | Raise e => Raise e
  end.

Section Rendering.
(** The two float renderings of the f-strings are left open:
    [fmt_2f x] is [f"{x:.2f}"] and [fmt_0f_grouped x] is [f"{x:,.0f}"]. *)
Variable fmt_2f : Q -> string.
Variable fmt_0f_grouped : Q -> string.

(** Lines 266-272.  Comparing [None] with a number raises [TypeError]. *)
Definition format_large_number (num : pyval) : outcome string :=
  match num with
  | PyNone => Raise TypeError
  | PyNum x =>
      if Qle_bool 1000000000000 x then Ret (fmt_2f (x / 1000000000000) +:+ "T")
      else if Qle_bool 1000000000 x then Ret (fmt_2f (x / 1000000000) +:+ "B")
      else if Qle_bool 1000000 x then Ret (fmt_2f (x / 1000000) +:+ "M")
      else Ret (fmt_0f_grouped x)
  end.

(** [info.get(key, 0)] *)
Definition get_or_zero (info : gmap string pyval) (key : string) : pyval :=
  default (PyNum 0) (info !! key).

(** [f"{value:.2f}"]: formatting [None] raises [TypeError]. *)
Definition render_2f (value : pyval) : outcome string :=
  match value with
  | PyNone => Raise TypeError
  | PyNum x => Ret (fmt_2f x)
  end.

(** The truth value of [info.get(key)]: a missing key, [None] and zero are
    false. *)
Definition has_figure (info : gmap string pyval) (key : string) : bool :=
  match info !! key with
  | Some (PyNum x) => negb (Qeq_bool x 0)
  | _ => false
  end.

(** Lines 278-286: the entries of the dict, in the order in which they are
    evaluated and inserted. *)
Definition prepare_metrics_data (info : gmap string pyval)
    : outcome (list (string * string)) :=
  and_next (format_large_number (get_or_zero info "marketCap")) (fun market_cap =>
  and_next (render_2f (get_or_zero info "trailingPE")) (fun pe =>
  and_next (render_2f (get_or_zero info "fiftyTwoWeekHigh")) (fun high =>
  and_next (render_2f (get_or_zero info "fiftyTwoWeekLow")) (fun low =>
  and_next (format_large_number (get_or_zero info "volume")) (fun volume =>
  and_next (if has_figure info "dividendYield"
            then match get_or_zero info "dividendYield" with
                 | PyNum y => Ret (fmt_2f (y * 100) +:+ "%")
                 | PyNone => Raise TypeError
                 end
            else Ret "N/A") (fun dividend =>
  Ret [ ("Market Cap", market_cap);
        ("P/E Ratio", pe);
        ("52 Week High", "$" +:+ high);
        ("52 Week Low", "$" +:+ low);
        ("Volume", volume);
        ("Dividend Yield", dividend) ])))))).
End Rendering.

(** A word as [str.split] yields them: not empty, no whitespace in it. *)
Definition is_word (w : string) : Prop :=
  w <> "" /\ Forall (fun c => is_space_ascii c = false) (chars w).

(** A text of ASCII characters only: on such a text [upper] and [lower]
    are Python's [str.upper] and [str.lower]. *)
Definition ascii_only (s : string) : Prop :=
  Forall (fun c => (nat_of_ascii c < 128)%nat) (chars s).

(** ** Reasoning about monadic code *)

Section MonadLemmas.
Context {L : Type}.
Implicit Types s : list Call * L.

Lemma bind_Ret {A B} (c : M L A) (k : A -> M L B) s a s' :
  c s = (Ret a, s') -> bind c k s = k a s'.
Proof. intros H. unfold bind. now rewrite H. Qed.

Lemma bind_Raise {A B} (c : M L A) (k : A -> M L B) s e s' :
  c s = (Raise e, s') -> bind c k s = (Raise e, s').
Proof. intros H. unfold bind. now rewrite H. Qed.

Lemma try_except_Ret {A} (c : M L A) h s a s' :
  c s = (Ret a, s') -> try_except c h s = (Ret a, s').
Proof. intros H. unfold try_except. now rewrite H. Qed.

Lemma try_except_Raise {A} (c : M L A) h s e s' :
  c s = (Raise e, s') -> try_except c h s = h e s'.
Proof. intros H. unfold try_except. now rewrite H. Qed.

Lemma for_app {A} (l1 l2 : list A) (body : A -> M L unit) s :
  for_ (l1 ++ l2) body s = bind (for_ l1 body) (fun _ => for_ l2 body) s.
Proof.
  revert s. induction l1 as [|x l1 IH]; intros s; simpl.
  - reflexivity.
  - unfold bind. destruct (body x s) as [[[]|e] s1]; [apply IH|reflexivity].
Qed.

(** A loop whose body always returns and keeps [I] returns and keeps [I]. *)
Lemma for_invariant {A} (I : list Call * L -> Prop) (l : list A)
    (body : A -> M L unit) :
  (forall x s, x ∈ l -> I s -> exists s', body x s = (Ret tt, s') /\ I s') ->
  forall s, I s -> exists s', for_ l body s = (Ret tt, s') /\ I s'.
Proof.
  induction l as [|x l IH]; intros Hbody s Hs; simpl.
  - now exists s.
  - destruct (Hbody x s) as (s1 & E1 & H1); [left|assumption|].
    rewrite (bind_Ret _ _ _ _ _ E1).
    apply IH; [|assumption].
    intros y s2 Hy. apply Hbody. now right.
Qed.
End MonadLemmas.

(** ** Lists and their two last elements *)

Lemma last_two_snoc (older : DataFrame) (previous latest : Bar) :
  last_two (older ++ [previous; latest]) = Some (previous, latest).
Proof.
  unfold last_two. now rewrite reverse_app.
Qed.

Lemma last_two_Some (hist : DataFrame) previous latest :
  last_two hist = Some (previous, latest) ->
  exists older, hist = older ++ [previous; latest].
Proof.
  unfold last_two. intros H.
  destruct (reverse hist) as [|b1 [|b2 r]] eqn:E; try discriminate.
  injection H as <- <-. exists (reverse r).
  rewrite <- (reverse_involutive hist), E.
  rewrite !reverse_cons, <- !app_assoc. reflexivity.
Qed.

Lemma last_two_None (hist : DataFrame) :
  last_two hist = None <-> (length hist < 2)%nat.
Proof.
  unfold last_two. rewrite <- (length_reverse hist).
  destruct (reverse hist) as [|b1 [|b2 r]]; simpl; split; intros; try done; lia.
Qed.

Lemma iloc_neg_last_two {L} (hist : DataFrame) s :
  iloc_neg (L := L) (Close <$> hist) 1 s =
    match reverse hist with
    | b :: _ => (Ret (Close b), s)
    | [] => (Raise IndexError, s)
    end
  /\ iloc_neg (L := L) (Close <$> hist) 2 s =
    match reverse hist with
    | _ :: b :: _ => (Ret (Close b), s)
    | _ => (Raise IndexError, s)
    end.
Proof.
  unfold iloc_neg. rewrite <- fmap_reverse.
  destruct (reverse hist) as [|b1 [|b2 r]]; simpl; split; reflexivity.
Qed.

Lemma length_ge2_last_two (hist : DataFrame) :
  (2 <=? length hist)%nat = bool_decide (is_Some (last_two hist)).
Proof.
  destruct (last_two hist) as [p|] eqn:E.
  - destruct p as [bp bc]. apply last_two_Some in E as [older ->].
    rewrite bool_decide_eq_true_2 by eauto.
    apply Nat.leb_le. rewrite length_app. simpl. lia.
  - rewrite bool_decide_eq_false_2 by (intros [? ?]; discriminate).
    apply last_two_None in E. apply Nat.leb_gt. lia.
Qed.

(** ** [index_step] and [snapshot], computed *)

Lemma index_step_eq (pv : Provider) symbol name log data :
  index_step pv (symbol, name) (log, data) =
    (Ret tt, (log ++ [history_call symbol],
              data ++ option_list (index_quote name (history_of pv log symbol "2d" None)))).
Proof.
  unfold index_step, try_except, bind, call_history, index_quote, history_call.
  cbn [fst snd].
  destruct (history_of pv log symbol "2d" None) as [|hist].
  - simpl. now rewrite app_nil_r.
  - rewrite length_ge2_last_two.
    destruct (iloc_neg_last_two (L := list IndexRow) hist
                (log ++ [CallHistory symbol "2d" None], data)) as [E1 E2].
    unfold last_two in *.
    destruct (reverse hist) as [|b1 [|b2 r]].
    + simpl. now rewrite app_nil_r.
    + simpl. now rewrite app_nil_r.
    + rewrite bool_decide_eq_true_2 by eauto.
      rewrite E1, E2. reflexivity.
Qed.

Lemma index_loop_eq (pv : Provider) table log data :
  for_ table (index_step pv) (log, data) =
    (Ret tt, (log ++ (history_call ∘ fst <$> table),
              data ++ index_quotes pv log table)).
Proof.
  revert log data. induction table as [|[symbol name] rest IH]; intros log data; simpl.
  - now rewrite !app_nil_r.
  - rewrite (bind_Ret _ _ _ _ _ (index_step_eq pv symbol name log data)).
    rewrite IH. rewrite <- !app_assoc. reflexivity.
Qed.

Lemma snapshot_eq (pv : Provider) table log :
  snapshot pv table log =
    (Ret (index_quotes pv log table), log ++ (history_call ∘ fst <$> table)).
Proof.
  unfold snapshot, run.
  rewrite (bind_Ret _ _ _ _ _ (index_loop_eq pv table log [])).
  reflexivity.
Qed.

(** ** [mover_step] and [rank], computed *)

Lemma truthy_lookup (d : gmap string string) key v :
  d !! key = Some v -> truthy (Some d) = true.
Proof.
  intros H. unfold truthy.
  rewrite bool_decide_eq_false_2; [reflexivity|].
  intros ->. now rewrite lookup_empty in H.
Qed.

Lemma lookup_None_not_key (d : gmap string string) key :
  d !! key = None -> bool_decide (is_Some (d !! key)) = false.
Proof.
  intros H. apply bool_decide_eq_false_2. rewrite H. now intros [? ?].
Qed.

Lemma lookup_Some_key (d : gmap string string) key v :
  d !! key = Some v -> bool_decide (is_Some (d !! key)) = true.
Proof.
  intros H. apply bool_decide_eq_true_2. rewrite H. eauto.
Qed.

Lemma mover_step_eq (pv : Provider) symbol log f :
  mover_step pv symbol (log, f) =
    (Ret tt, (log ++ mover_calls pv log symbol,
              add_mover (mover_quote_at pv log symbol) f)).
Proof.
  unfold mover_step, mover_quote_at, mover_calls, try_except, bind,
    call_history, call_info, and_then, bind, ret, history_call.
  cbn [fst snd].
  destruct (history_of pv log symbol "2d" None) as [|hist]; [reflexivity|].
  rewrite <- app_assoc. cbn [app].
  destruct (info_of pv (log ++ [CallHistory symbol "2d" None]) symbol)
    as [|[d|]].
  - reflexivity.
  - rewrite length_ge2_last_two.
    set (s1 := (log ++ [CallHistory symbol "2d" None; CallInfo symbol], f)).
    destruct (iloc_neg_last_two (L := MoversFrame) hist s1) as [E1 E2].
    unfold mover_quote, last_two in *.
    destruct (reverse hist) as [|b1 [|b2 r]].
    + rewrite bool_decide_eq_false_2 by (intros [? ?]; discriminate). reflexivity.
    + rewrite bool_decide_eq_false_2 by (intros [? ?]; discriminate). reflexivity.
    + rewrite bool_decide_eq_true_2 by eauto.
      unfold contains_key, getitem, ret.
      destruct (d !! "longName") as [longName|] eqn:Ed.
      * rewrite (truthy_lookup _ _ _ Ed).
        rewrite bool_decide_eq_true_2 by eauto.
        rewrite E1, E2. unfold add_mover, is_gainer, keyed, mover_row, modify.
        cbn [mv_ChangePct fst snd mbind option_bind].
        subst s1. cbn [fst snd].
        destruct (num_gt0 _); reflexivity.
      * rewrite bool_decide_eq_false_2 by (intros [? ?]; discriminate).
        destruct (truthy (Some d)); reflexivity.
  - rewrite length_ge2_last_two. unfold mover_quote.
    destruct (bool_decide _); reflexivity.
Qed.

Lemma add_mover_frame (row : option MoverRow) (f : MoversFrame) :
  gainers (add_mover row f)
    = gainers f ++ (keyed <$> filter (fun r => is_gainer r = true) (option_list row))
  /\ losers (add_mover row f)
    = losers f ++ (keyed <$> filter (fun r => is_gainer r = false) (option_list row)).
Proof.
  destruct row as [r|]; simpl.
  - rewrite !filter_cons, !filter_nil.
    destruct (is_gainer r) eqn:E; simpl;
      repeat case_decide; try congruence; simpl;
      rewrite ?app_nil_r; split; reflexivity.
  - now rewrite !app_nil_r.
Qed.

Lemma mover_loop_eq (pv : Provider) watchlist log f :
  exists f',
    for_ watchlist (mover_step pv) (log, f)
      = (Ret tt, (log ++ watchlist_calls pv log watchlist, f'))
    /\ gainers f' = gainers f ++
         (keyed <$> filter (fun r => is_gainer r = true) (mover_quotes pv log watchlist))
    /\ losers f' = losers f ++
         (keyed <$> filter (fun r => is_gainer r = false) (mover_quotes pv log watchlist)).
Proof.
  revert log f. induction watchlist as [|symbol rest IH]; intros log f; simpl.
  - exists f. now rewrite !app_nil_r.
  - rewrite (bind_Ret _ _ _ _ _ (mover_step_eq pv symbol log f)).
    destruct (IH (log ++ mover_calls pv log symbol)
                 (add_mover (mover_quote_at pv log symbol) f))
      as (f' & E & Hg & Hl).
    destruct (add_mover_frame (mover_quote_at pv log symbol) f) as [Hg0 Hl0].
    exists f'. rewrite E, Hg, Hl, Hg0, Hl0.
    rewrite !filter_app, !fmap_app, <- !app_assoc. auto.
Qed.

Lemma rank_eq (pv : Provider) watchlist log :
  let rows := mover_quotes pv log watchlist in
  rank pv watchlist log =
    (Ret (snd <$> take 10 (sorted_desc
                    (keyed <$> filter (fun r => is_gainer r = true) rows)),
          snd <$> take 10 (sorted_asc
                    (keyed <$> filter (fun r => is_gainer r = false) rows))),
     log ++ watchlist_calls pv log watchlist).
Proof.
  intros rows. unfold rank, run.
  destruct (mover_loop_eq pv watchlist log {| gainers := []; losers := [] |})
    as (f' & E & Hg & Hl).
  rewrite (bind_Ret _ _ _ _ _ E).
  unfold bind, gets, ret. cbn [fst snd]. simpl in Hg, Hl.
  now rewrite Hg, Hl.
Qed.

(** ** Sorting by key *)

Lemma Qltb_lt (p q : Q) : negb (Qle_bool q p) = true <-> (p < q)%Q.
Proof.
  rewrite negb_true_iff. split.
  - intros H. apply Qnot_le_lt. intros Hle. apply Qle_bool_iff in Hle. congruence.
  - intros H. destruct (Qle_bool q p) eqn:E; [|reflexivity].
    apply Qle_bool_iff in E. now apply Qlt_not_le in H.
Qed.

Lemma num_ltb_le (a b : num) : num_ltb a b = true -> num_le a b.
Proof.
  destruct a as [p| | |], b as [q| | |]; simpl; try discriminate; auto.
  intros H. apply Qltb_lt in H. now apply Qlt_le_weak.
Qed.

Lemma num_ltb_false (a b : num) :
  a <> NaN -> b <> NaN -> num_ltb a b = false -> num_le b a.
Proof.
  destruct a as [p| | |], b as [q| | |]; simpl;
    try discriminate; try congruence; auto.
  intros _ _ H. apply negb_false_iff in H. now apply Qle_bool_iff.
Qed.

Lemma num_le_ltb (a b : num) : num_le a b -> num_ltb b a = false.
Proof.
  destruct a as [p| | |], b as [q| | |]; simpl;
    try contradiction; auto.
  intros H. apply negb_false_iff. now apply Qle_bool_iff.
Qed.

Lemma num_ltb_le_trans (a b c : num) :
  num_ltb a b = true -> num_le b c -> num_ltb a c = true.
Proof.
  destruct a as [p| | |], b as [q| | |], c as [r| | |]; simpl;
    try discriminate; try contradiction; auto.
  intros H1 H2. apply Qltb_lt. apply Qltb_lt in H1.
  eapply Qlt_le_trans; eassumption.
Qed.

Lemma num_le_total (a b : num) : a <> NaN -> b <> NaN -> num_le a b \/ num_le b a.
Proof.
  intros Ha Hb. destruct a as [p| | |], b as [q| | |]; simpl;
    try congruence; auto.
  destruct (Qlt_le_dec p q); [left; now apply Qlt_le_weak|now right].
Qed.

Lemma num_le_trans (a b c : num) : num_le a b -> num_le b c -> num_le a c.
Proof.
  destruct a as [p| | |], b as [q| | |], c as [r| | |]; simpl;
    try contradiction; auto. apply Qle_trans.
Qed.

Lemma num_gt0_spec (x : num) : num_gt0 x = true <-> num_pos x.
Proof.
  destruct x as [q| | |]; simpl;
    [|split; auto|split; [discriminate|contradiction]
     |split; [discriminate|contradiction]].
  unfold Qgt0. rewrite negb_true_iff. split.
  - intros H. apply Qnot_le_lt. intros Hle. apply Qle_bool_iff in Hle. congruence.
  - intros H. destruct (Qle_bool q 0) eqn:E; [|reflexivity].
    apply Qle_bool_iff in E. now apply Qlt_not_le in H.
Qed.

Lemma num_gt0_not_NaN (x : num) : num_gt0 x = true -> x <> NaN.
Proof. destruct x; simpl; congruence. Qed.

Section Sorting.
Context {A : Type}.
Implicit Types (x y pivot : num * A) (l run rest : list (num * A)).

Local Abbreviation le := (by_key (A:=A) num_le).
Local Abbreviation numeric := (fun p : num * A => fst p <> NaN).

#[local] Instance by_key_le_transitive : Transitive le.
Proof. intros x y z. unfold by_key. apply num_le_trans. Qed.

Lemma key_lt_le x y : key_lt x y = true -> le x y.
Proof. apply num_ltb_le. Qed.

Lemma key_lt_false x y : numeric x -> numeric y -> key_lt x y = false -> le y x.
Proof. apply num_ltb_false. Qed.

Lemma le_key_lt x y : le x y -> key_lt y x = false.
Proof. apply num_le_ltb. Qed.

Lemma key_lt_le_trans x y z : key_lt x y = true -> le y z -> key_lt x z = true.
Proof. apply num_ltb_le_trans. Qed.

(** The binary search keeps the elements that [pivot] is not less than on
    its left and the elements that [pivot] is less than on its right. *)
Lemma bisect_spec rounds pivot run : forall lo hi,
  StronglySorted le run ->
  (lo <= hi <= length run)%nat -> (hi - lo <= rounds)%nat ->
  Forall (fun y => key_lt pivot y = false) (take lo run) ->
  Forall (fun y => key_lt pivot y = true) (drop hi run) ->
  Forall (fun y => key_lt pivot y = false) (take (bisect rounds pivot run lo hi) run) /\
  Forall (fun y => key_lt pivot y = true) (drop (bisect rounds pivot run lo hi) run).
Proof.
  induction rounds as [|rounds IH]; intros lo hi Hs Hb Hr Hlo Hhi; simpl.
  - assert (lo = hi) by lia. subst. now split.
  - destruct (decide (lo < hi)%nat) as [Hlt|Hge].
    2:{ assert (lo = hi) by lia. subst. now split. }
    pose proof (Nat.lt_div2 (hi - lo) ltac:(lia)) as Hhalf.
    generalize dependent (Nat.div2 (hi - lo)). intros half Hhalf.
    remember (lo + half)%nat as p eqn:Ep.
    assert (Hp : (lo <= p < hi)%nat) by lia.
    destruct (lookup_lt_is_Some_2 run p ltac:(lia)) as [y Hy]. rewrite Hy.
    pose proof (take_drop_middle run p y Hy) as Hmid.
    pose proof Hs as Hs'. rewrite <- Hmid in Hs'.
    destruct (key_lt pivot y) eqn:Ek.
    + apply IH; try assumption; try lia.
      rewrite (drop_S _ _ _ Hy). constructor; [assumption|].
      apply StronglySorted_app_1_r, StronglySorted_cons in Hs' as [Hy' _].
      eapply Forall_impl; [exact Hy'|]. intros z Hz.
      eapply key_lt_le_trans; eassumption.
    + apply IH; try assumption; try lia.
      rewrite (take_S_r _ _ _ Hy). apply Forall_app. split; [|now constructor].
      apply Forall_forall. intros z Hz.
      destruct (key_lt pivot z) eqn:Ez; [|reflexivity].
      assert (Hzy : le z y).
      { eapply StronglySorted_app_1_elem_of; [exact Hs'|exact Hz|left]. }
      rewrite (key_lt_le_trans _ _ _ Ez Hzy) in Ek. discriminate.
Qed.

Lemma binary_insert_Permutation run pivot : binary_insert run pivot ≡ₚ pivot :: run.
Proof.
  unfold binary_insert. rewrite <- Permutation_middle. now rewrite take_drop.
Qed.

Lemma binary_insert_sorted run pivot :
  numeric pivot -> Forall numeric run ->
  StronglySorted le run -> StronglySorted le (binary_insert run pivot).
Proof.
  intros Hp Hn Hs. unfold binary_insert.
  destruct (bisect_spec (length run) pivot run 0 (length run)) as [Hlo Hhi];
    [assumption|lia|lia|constructor|rewrite drop_all; constructor|].
  set (i := bisect _ _ _ _ _) in *.
  rewrite <- (take_drop i run) in Hs.
  apply StronglySorted_app_2.
  - intros z w Hz Hw. apply elem_of_cons in Hw as [->|Hw].
    + apply key_lt_false; [assumption| |].
      * eapply Forall_forall in Hn; [exact Hn|]. eapply subseteq_take, Hz.
      * eapply Forall_forall in Hlo; [exact Hlo|exact Hz].
    + eapply StronglySorted_app_1_elem_of; eassumption.
  - eapply StronglySorted_app_1_l, Hs.
  - apply StronglySorted_cons. split.
    + eapply Forall_impl; [exact Hhi|]. intros z. apply key_lt_le.
    + eapply StronglySorted_app_1_r, Hs.
Qed.

Lemma foldl_binary_insert_Permutation rest : forall run,
  foldl binary_insert run rest ≡ₚ run ++ rest.
Proof.
  induction rest as [|x rest IH]; intros run; simpl.
  - now rewrite app_nil_r.
  - rewrite IH, binary_insert_Permutation. apply Permutation_middle.
Qed.

Lemma foldl_binary_insert_sorted rest : forall run,
  Forall numeric run -> Forall numeric rest ->
  StronglySorted le run -> StronglySorted le (foldl binary_insert run rest).
Proof.
  induction rest as [|x rest IH]; intros run Hn Hr Hs; simpl; [assumption|].
  apply Forall_cons in Hr as [Hx Hr].
  apply IH; [|assumption|now apply binary_insert_sorted].
  rewrite binary_insert_Permutation. now constructor.
Qed.

Lemma run_ascending_Sorted l : forall prev,
  Forall numeric (prev :: l) ->
  Sorted le (take (S (run_ascending prev l)) (prev :: l)).
Proof.
  induction l as [|x l IH]; intros prev Hn; simpl; [repeat constructor|].
  apply Forall_cons in Hn as [Hp Hn].
  destruct (key_lt x prev) eqn:E; simpl; [repeat constructor|].
  constructor; [apply (IH x Hn)|].
  constructor. apply Forall_cons in Hn as [Hx _]. now apply key_lt_false.
Qed.

Lemma run_descending_Sorted l : forall prev,
  Sorted (flip le) (take (S (run_descending prev l)) (prev :: l)).
Proof.
  induction l as [|x l IH]; intros prev; simpl; [repeat constructor|].
  destruct (key_lt x prev) eqn:E; simpl; [|repeat constructor].
  constructor; [apply (IH x)|].
  constructor. now apply key_lt_le.
Qed.

Lemma run_ascending_all l : forall prev,
  Sorted le (prev :: l) -> run_ascending prev l = length l.
Proof.
  induction l as [|x l IH]; intros prev Hs; simpl; [reflexivity|].
  apply Sorted_inv in Hs as [Hs Hx]. apply HdRel_inv in Hx.
  rewrite (le_key_lt _ _ Hx). f_equal. now apply IH.
Qed.

Lemma count_run_sorted l n descending :
  count_run l = (n, descending) -> Forall numeric l ->
  StronglySorted le (if descending then reverse (take n l) else take n l).
Proof.
  destruct l as [|x [|y l]]; simpl.
  - intros [= <- <-] _. constructor.
  - intros [= <- <-] _. repeat constructor.
  - destruct (key_lt y x) eqn:E; intros [= <- <-] Hn.
    + apply Sorted_StronglySorted; [apply _|].
      assert (Er : S (run_descending y l) = run_descending x (y :: l))
        by (simpl; now rewrite E).
      rewrite Er. apply (Sorted_reverse (flip le)), run_descending_Sorted.
    + apply Sorted_StronglySorted; [apply _|].
      assert (Er : S (run_ascending y l) = run_ascending x (y :: l))
        by (simpl; now rewrite E).
      rewrite Er. now apply run_ascending_Sorted.
Qed.

Lemma count_run_of_sorted l : Sorted le l -> count_run l = (length l, false).
Proof.
  destruct l as [|x [|y l]]; intros Hs; simpl; try reflexivity.
  apply Sorted_inv in Hs as [Hs Hx]. apply HdRel_inv in Hx.
  rewrite (le_key_lt _ _ Hx). now rewrite (run_ascending_all _ _ Hs).
Qed.

Lemma list_sort_Permutation l : list_sort l ≡ₚ l.
Proof.
  unfold list_sort. destruct (count_run l) as [n descending].
  rewrite foldl_binary_insert_Permutation.
  destruct descending; [rewrite reverse_Permutation|]; now rewrite take_drop.
Qed.

Lemma list_sort_sorted l : Forall numeric l -> StronglySorted le (list_sort l).
Proof.
  intros Hn. unfold list_sort. destruct (count_run l) as [n descending] eqn:E.
  apply foldl_binary_insert_sorted.
  - destruct descending; [apply Forall_reverse|]; now apply Forall_take.
  - now apply Forall_drop.
  - now apply count_run_sorted.
Qed.

Lemma list_sort_of_sorted l : Sorted le l -> list_sort l = l.
Proof.
  intros Hs. unfold list_sort. rewrite (count_run_of_sorted l Hs).
  now rewrite drop_all, firstn_all.
Qed.

Lemma sorted_asc_Permutation l : sorted_asc l ≡ₚ l.
Proof. apply list_sort_Permutation. Qed.

Lemma sorted_desc_Permutation l : sorted_desc l ≡ₚ l.
Proof.
  unfold sorted_desc.
  now rewrite reverse_Permutation, list_sort_Permutation, reverse_Permutation.
Qed.

Lemma sorted_asc_Sorted l :
  Forall numeric l -> Sorted (by_key num_le) (sorted_asc l).
Proof. intros Hn. now apply StronglySorted_Sorted, list_sort_sorted. Qed.

Lemma sorted_desc_Sorted l :
  Forall numeric l -> Sorted (by_key (fun a b => num_le b a)) (sorted_desc l).
Proof.
  intros Hn. unfold sorted_desc.
  apply (Sorted_reverse le), StronglySorted_Sorted, list_sort_sorted.
  now apply Forall_reverse.
Qed.

Lemma sorted_asc_of_sorted l : Sorted (by_key num_le) l -> sorted_asc l = l.
Proof. apply list_sort_of_sorted. Qed.

Lemma sorted_desc_of_sorted l :
  Sorted (by_key (fun a b => num_le b a)) l -> sorted_desc l = l.
Proof.
  intros Hs. unfold sorted_desc.
  rewrite list_sort_of_sorted; [apply reverse_involutive|].
  apply (Sorted_reverse (flip le)), Hs.
Qed.
End Sorting.


Lemma Sorted_keyed (R : num -> num -> Prop) (l : list (num * MoverRow)) :
  Forall (fun p => p = keyed (snd p)) l ->
  Sorted (fun p q => R (fst p) (fst q)) l ->
  Sorted (fun a b => R (mv_ChangePct a) (mv_ChangePct b)) (snd <$> l).
Proof.
  intros Hk Hs. induction Hs as [|p l Hl IH Hp]; simpl; [constructor|].
  apply Forall_cons in Hk as [Hp0 Hk].
  constructor; [now apply IH|].
  destruct Hp as [|q l Hpq]; simpl; constructor.
  apply Forall_cons in Hk as [Hq0 _].
  rewrite Hp0, Hq0 in Hpq. exact Hpq.
Qed.

Lemma Forall_keyed (l : list MoverRow) :
  Forall (fun p => p = keyed (snd p)) (keyed <$> l).
Proof. apply Forall_fmap, Forall_true. reflexivity. Qed.

Lemma top_desc_perm (rows : list MoverRow) :
  let top := snd <$> take 10 (sorted_desc (keyed <$> rows)) in
  exists sorted, sorted ≡ₚ rows /\ top = take 10 sorted /\
    (Forall (fun r => mv_ChangePct r <> NaN) rows -> Sorted descending sorted).
Proof.
  intros top. exists (snd <$> sorted_desc (keyed <$> rows)).
  assert (P : sorted_desc (keyed <$> rows) ≡ₚ keyed <$> rows)
    by apply sorted_desc_Permutation.
  split; [|split].
  - rewrite P, <- list_fmap_compose. now rewrite list_fmap_id.
  - subst top. now rewrite fmap_take.
  - intros Hn. apply (Sorted_keyed (fun a b => num_le b a)).
    + rewrite P. apply Forall_keyed.
    + apply sorted_desc_Sorted.
      apply Forall_fmap. eapply Forall_impl; [exact Hn|]. auto.
Qed.

Lemma top_asc_perm (rows : list MoverRow) :
  let top := snd <$> take 10 (sorted_asc (keyed <$> rows)) in
  exists sorted, sorted ≡ₚ rows /\ top = take 10 sorted /\
    (Forall (fun r => mv_ChangePct r <> NaN) rows -> Sorted ascending sorted).
Proof.
  intros top. exists (snd <$> sorted_asc (keyed <$> rows)).
  assert (P : sorted_asc (keyed <$> rows) ≡ₚ keyed <$> rows)
    by apply sorted_asc_Permutation.
  split; [|split].
  - rewrite P, <- list_fmap_compose. now rewrite list_fmap_id.
  - subst top. now rewrite fmap_take.
  - intros Hn. apply (Sorted_keyed num_le).
    + rewrite P. apply Forall_keyed.
    + apply sorted_asc_Sorted.
      apply Forall_fmap. eapply Forall_impl; [exact Hn|]. auto.
Qed.

Lemma gainers_not_NaN (rows : list MoverRow) :
  Forall (fun r => mv_ChangePct r <> NaN) (filter (fun r => is_gainer r = true) rows).
Proof.
  apply Forall_forall. intros r Hr. apply list_elem_of_filter in Hr as [Hg _].
  now apply num_gt0_not_NaN.
Qed.

(** ** Rows of a table of indices, by position *)

Lemma Qgt0_spec (x : Q) : Qgt0 x = true <-> (0 < x)%Q.
Proof.
  unfold Qgt0. rewrite negb_true_iff. split.
  - intros H. apply Qnot_le_lt. intros Hle.
    apply Qle_bool_iff in Hle. congruence.
  - intros H. destruct (Qle_bool x 0) eqn:E; [|reflexivity].
    apply Qle_bool_iff in E. now apply Qlt_not_le in H.
Qed.

Lemma Qgt0_false (x : Q) : Qgt0 x = false <-> (x <= 0)%Q.
Proof.
  unfold Qgt0. rewrite negb_false_iff. apply Qle_bool_iff.
Qed.

Lemma index_quotes_app (pv : Provider) log pre post :
  index_quotes pv log (pre ++ post) =
    index_quotes pv log pre
    ++ index_quotes pv (log ++ (history_call ∘ fst <$> pre)) post.
Proof.
  revert log. induction pre as [|[symbol name] pre IH]; intros log; simpl.
  - now rewrite app_nil_r.
  - rewrite IH, <- !app_assoc. reflexivity.
Qed.

Lemma index_quote_name name answer row :
  index_quote name answer = Some row -> ix_Index row = name.
Proof.
  destruct answer as [|hist]; simpl; [discriminate|].
  destruct (last_two hist) as [[previous latest]|]; simpl; [|discriminate].
  now intros [= <-].
Qed.

Lemma index_quote_is_Some name answer :
  is_Some (index_quote name answer) <->
  exists hist, answer = Gives hist /\ (2 <= length hist)%nat.
Proof.
  destruct answer as [|hist]; simpl.
  - split; [intros [? ?]; discriminate|intros (? & ? & _); discriminate].
  - destruct (last_two hist) as [[previous latest]|] eqn:E; simpl.
    + split; [|eauto]. intros _. exists hist. split; [reflexivity|].
      apply last_two_Some in E as [older ->]. rewrite length_app. simpl. lia.
    + apply last_two_None in E. split; [intros [? ?]; discriminate|].
      intros (h & [= <-] & Hlen). lia.
Qed.

Lemma index_quotes_elem_of (pv : Provider) log table row :
  row ∈ index_quotes pv log table <->
  exists pre symbol name post,
    table = pre ++ (symbol, name) :: post /\
    index_quote name
      (history_of pv (log ++ (history_call ∘ fst <$> pre)) symbol "2d" None)
      = Some row.
Proof.
  revert log. induction table as [|[symbol name] rest IH]; intros log; simpl.
  - split; [intros H; inversion H|].
    intros (pre & ? & ? & ? & E & _). now destruct pre.
  - rewrite elem_of_app, IH. split.
    + intros [H|(pre & s & n & post & -> & H)].
      * exists [], symbol, name, rest. split; [reflexivity|]. simpl.
        rewrite app_nil_r.
        destruct (index_quote _ _) as [r|]; simpl in H.
        -- apply list_elem_of_singleton in H. now subst.
        -- inversion H.
      * exists ((symbol, name) :: pre), s, n, post. split; [reflexivity|].
        simpl. now rewrite <- app_assoc in H.
    + intros ([|[s0 n0] pre] & s & n & post & E & H); simpl in E.
      * injection E as -> -> ->. left. simpl in H. rewrite app_nil_r in H.
        rewrite H. simpl. now left.
      * injection E as -> -> ->. right.
        exists pre, s, n, post. split; [reflexivity|].
        simpl in H. now rewrite <- app_assoc.
Qed.

Lemma index_quotes_names_sublist (pv : Provider) log table :
  ix_Index <$> index_quotes pv log table `sublist_of` snd <$> table.
Proof.
  revert log. induction table as [|[symbol name] rest IH]; intros log; simpl.
  - constructor.
  - rewrite fmap_app.
    destruct (index_quote name _) as [row|] eqn:E; simpl.
    + rewrite (index_quote_name _ _ _ E). apply sublist_skip, IH.
    + apply sublist_cons, IH.
Qed.

(** ** Rows of a watchlist, by position *)

Lemma rank_log (pv : Provider) watchlist log :
  snd (rank pv watchlist log) = log ++ watchlist_calls pv log watchlist.
Proof. now rewrite rank_eq. Qed.

Lemma mover_quote_Some symbol hist info row :
  mover_quote symbol hist info = Some row ->
  exists older previous latest d longName,
    hist = Gives (older ++ [previous; latest]) /\
    info = Gives (Some d) /\
    d !! "longName" = Some longName /\
    row = mover_row symbol longName (Close previous) (Close latest).
Proof.
  destruct hist as [|h]; [discriminate|].
  destruct info as [|[d|]]; simpl; try discriminate.
  destruct (last_two h) as [[previous latest]|] eqn:E; simpl; [|discriminate].
  destruct (d !! "longName") as [longName|] eqn:Ed; simpl; [|discriminate].
  intros [= <-]. apply last_two_Some in E as [older ->].
  exists older, previous, latest, d, longName. auto.
Qed.

Lemma mover_quotes_elem_of (pv : Provider) log watchlist row :
  row ∈ mover_quotes pv log watchlist <->
  exists pre symbol post,
    watchlist = pre ++ symbol :: post /\
    mover_quote_at pv (log ++ watchlist_calls pv log pre) symbol = Some row.
Proof.
  revert log. induction watchlist as [|symbol rest IH]; intros log; simpl.
  - split; [intros H; inversion H|].
    intros (pre & ? & ? & E & _). now destruct pre.
  - rewrite elem_of_app, IH. split.
    + intros [H|(pre & s & post & -> & H)].
      * exists [], symbol, rest. split; [reflexivity|]. simpl.
        rewrite app_nil_r.
        destruct (mover_quote_at _ _ _) as [r|]; simpl in H.
        -- apply list_elem_of_singleton in H. now subst.
        -- inversion H.
      * exists (symbol :: pre), s, post. split; [reflexivity|].
        simpl. now rewrite <- app_assoc in H.
    + intros ([|s0 pre] & s & post & E & H); simpl in E.
      * injection E as -> ->. left. simpl in H. rewrite app_nil_r in H.
        rewrite H. simpl. now left.
      * injection E as -> ->. right.
        exists pre, s, post. split; [reflexivity|].
        simpl in H. now rewrite <- app_assoc.
Qed.

Lemma elem_of_top (rows : list MoverRow) (P : MoverRow -> Prop)
    `{!forall r, Decision (P r)} sorted row :
  sorted ≡ₚ filter P rows -> row ∈ take 10 sorted -> row ∈ rows /\ P row.
Proof.
  intros Hp Hin.
  apply (subseteq_take 10 sorted) in Hin.
  rewrite Hp in Hin. now apply list_elem_of_filter in Hin as [? ?].
Qed.

(** ** [search_stock], computed *)

Lemma complete_test_eq (info : Info) (s : list Call * SearchFrame) :
  and_then (ret (truthy info))
    (and_then (contains_key "longName" info) (contains_key "symbol" info)) s
  = (Ret (bool_decide (is_Some (complete_record (Gives info)))), s).
Proof.
  unfold and_then, bind, ret, contains_key, complete_record.
  destruct info as [d|]; [|reflexivity].
  destruct (d !! "longName") as [n|] eqn:En.
  - rewrite (truthy_lookup _ _ _ En).
    rewrite bool_decide_eq_true_2 by eauto.
    destruct (d !! "symbol") as [sy|]; reflexivity.
  - destruct (truthy (Some d)); [|reflexivity].
    rewrite bool_decide_eq_false_2 by (intros [? ?]; discriminate). reflexivity.
Qed.

Lemma direct_lookup_eq (pv : Provider) query log f :
  direct_lookup pv query (log, f) =
    (Ret ((fun c => [c]) <$> complete_record (info_of pv log query)),
     (log ++ [CallInfo query], f)).
Proof.
  unfold direct_lookup, try_except. unfold bind at 1, call_info. cbn [fst snd].
  destruct (info_of pv log query) as [|info]; [reflexivity|].
  unfold bind at 1. rewrite complete_test_eq.
  unfold complete_record, getitem, bind, ret.
  destruct info as [d|]; simpl; [|reflexivity].
  destruct (d !! "longName") as [n|]; simpl; [|reflexivity].
  destruct (d !! "symbol") as [sy|]; reflexivity.
Qed.

Lemma probe_eq (pv : Provider) ticker log f :
  try_except (probe pv ticker) (fun _ => ret tt) (log, f) =
    (Ret tt, (log ++ [CallInfo ticker],
              add_candidate (complete_record (info_of pv log ticker)) f)).
Proof.
  unfold probe, try_except. unfold bind at 1, call_info. cbn [fst snd].
  destruct (info_of pv log ticker) as [|info]; [reflexivity|].
  unfold bind at 1. rewrite complete_test_eq.
  unfold complete_record, add_candidate, getitem, bind, ret, gets, modify.
  destruct info as [d|]; simpl; [|reflexivity].
  destruct (d !! "longName") as [n|]; simpl; [|reflexivity].
  destruct (d !! "symbol") as [sy|]; simpl; [|reflexivity].
  destruct (bool_decide (sy ∉ seen_symbols f)); [|reflexivity].
  simpl. now destruct f.
Qed.

Lemma suffix_loop_eq (pv : Provider) variation sfx log f :
  for_ sfx (fun suffix =>
      try_except (probe pv (variation +:+ suffix)) (fun _ => ret tt)) (log, f) =
    (Ret tt, (log ++ (CallInfo <$> ((fun suffix => variation +:+ suffix) <$> sfx)),
              sweep_frame pv log ((fun suffix => variation +:+ suffix) <$> sfx) f)).
Proof.
  revert log f. induction sfx as [|suffix sfx IH]; intros log f; simpl.
  - now rewrite app_nil_r.
  - rewrite (bind_Ret _ _ _ _ _ (probe_eq pv _ log f)).
    rewrite IH, <- app_assoc. reflexivity.
Qed.

Lemma sweep_frame_app (pv : Provider) log t1 t2 f :
  sweep_frame pv log (t1 ++ t2) f =
    sweep_frame pv (log ++ (CallInfo <$> t1)) t2 (sweep_frame pv log t1 f).
Proof.
  revert log f. induction t1 as [|t t1 IH]; intros log f; simpl.
  - now rewrite app_nil_r.
  - rewrite IH, <- app_assoc. reflexivity.
Qed.

Lemma bind_singleton_fmap {A B} (g : A -> B) (l : list A) :
  (x ← l; [g x]) = g <$> l.
Proof. induction l as [|x l IH]; [reflexivity|]. rewrite bind_cons, IH. reflexivity. Qed.

Lemma variation_loop_eq (pv : Provider) vars log f :
  let tickers := variation ← vars; suffix ← suffixes; [variation +:+ suffix] in
  for_ vars (fun variation =>
      try_except
        (for_ suffixes (fun suffix =>
           try_except (probe pv (variation +:+ suffix)) (fun _ => ret tt)))
        (fun _ => ret tt)) (log, f) =
    (Ret tt, (log ++ (CallInfo <$> tickers), sweep_frame pv log tickers f)).
Proof.
  cbv zeta.
  revert log f. induction vars as [|variation vars IH]; intros log f.
  - simpl. now rewrite app_nil_r.
  - cbn [for_]. rewrite bind_cons.
    erewrite bind_Ret;
      [|apply try_except_Ret; apply suffix_loop_eq].
    rewrite IH. rewrite bind_singleton_fmap.
    rewrite sweep_frame_app, fmap_app, <- app_assoc.
    reflexivity.
Qed.

Lemma variation_sweep_eq (pv : Provider) query log f :
  variation_sweep pv query (log, f) =
    (Ret tt, (log ++ (CallInfo <$> sweep_tickers query),
              sweep_frame pv log (sweep_tickers query) f)).
Proof. apply variation_loop_eq. Qed.

Lemma named_test_eq {L} (info : Info) (s : list Call * L) :
  and_then (ret (truthy info)) (contains_key "longName" info) s
  = (Ret (bool_decide (is_Some (named_record (Gives info)))), s).
Proof.
  unfold and_then, bind, ret, contains_key, named_record.
  destruct info as [d|]; [|reflexivity].
  destruct (d !! "longName") as [n|] eqn:En.
  - rewrite (truthy_lookup _ _ _ En). reflexivity.
  - destruct (truthy (Some d)); [|reflexivity].
    rewrite bool_decide_eq_false_2 by (intros [? ?]; discriminate). reflexivity.
Qed.

Lemma fallback_step_eq (pv : Provider) query symbol name log f :
  fallback_step pv (lower query) (symbol, name) (log, f) =
    if name_matches query (symbol, name) then
      (Ret tt, (log ++ [CallInfo symbol],
                {| results := results f ++
                     match named_record (info_of pv log symbol) with
                     | Some longName => [(symbol, longName)]
                     | None => []
                     end;
                   seen_symbols := seen_symbols f |}))
    else (Ret tt, (log, f)).
Proof.
  unfold fallback_step, name_matches. cbn [snd].
  destruct (substring_of (lower query) (lower name)); [|reflexivity].
  unfold try_except. unfold bind at 1, call_info. cbn [fst snd].
  destruct (info_of pv log symbol) as [|info].
  - simpl. rewrite app_nil_r. now destruct f.
  - unfold bind at 1. rewrite named_test_eq.
    unfold named_record, getitem, bind, ret, modify.
    destruct info as [d|].
    + destruct (d !! "longName") as [n|].
      * rewrite bool_decide_eq_true_2 by eauto. reflexivity.
      * rewrite bool_decide_eq_false_2 by (intros [? ?]; discriminate).
        rewrite app_nil_r. now destruct f.
    + rewrite bool_decide_eq_false_2 by (intros [? ?]; discriminate).
      rewrite app_nil_r. now destruct f.
Qed.

Lemma fallback_loop_eq (pv : Provider) query table log f :
  for_ table (fallback_step pv (lower query)) (log, f) =
    (Ret tt, (log ++ (CallInfo <$> fallback_tickers query table),
              {| results := results f ++ fallback_rows pv log query table;
                 seen_symbols := seen_symbols f |})).
Proof.
  revert log f. induction table as [|[symbol name] rest IH]; intros log f.
  - simpl. rewrite !app_nil_r. now destruct f.
  - cbn [for_]. unfold bind at 1. rewrite fallback_step_eq.
    unfold fallback_tickers. rewrite filter_cons. cbn [fallback_rows].
    destruct (name_matches query (symbol, name)) eqn:E.
    + rewrite decide_True by reflexivity. rewrite IH. simpl.
      rewrite <- !app_assoc. reflexivity.
    + rewrite decide_False by discriminate. rewrite IH. reflexivity.
Qed.

Lemma fallback_eq (pv : Provider) query log f :
  fallback pv query (log, f) =
    (Ret tt, (log ++ (CallInfo <$> fallback_tickers query common_stocks),
              {| results := results f ++ fallback_rows pv log query common_stocks;
                 seen_symbols := seen_symbols f |})).
Proof. apply fallback_loop_eq. Qed.

Lemma tier1_eq (pv : Provider) query log :
  tier1 pv query log =
    (Ret ((fun c => [c]) <$> complete_record (info_of pv log query)),
     log ++ [CallInfo query]).
Proof. unfold tier1, run. now rewrite direct_lookup_eq. Qed.

Lemma tier2_eq (pv : Provider) query log :
  tier2 pv query log =
    (Ret (results (sweep_frame pv log (sweep_tickers query) no_results)),
     log ++ (CallInfo <$> sweep_tickers query)).
Proof.
  unfold tier2, run.
  rewrite (bind_Ret _ _ _ _ _ (variation_sweep_eq pv query log no_results)).
  reflexivity.
Qed.

Lemma search_stock_eq (pv : Provider) query log :
  search_stock pv query log =
    match complete_record (info_of pv log query) with
    | Some c => (Ret [c], log ++ [CallInfo query])
    | None =>
        let log1 := log ++ [CallInfo query] in
        let log2 := log1 ++ (CallInfo <$> sweep_tickers query) in
        match results (sweep_frame pv log1 (sweep_tickers query) no_results) with
        | [] => (Ret (fallback_rows pv log2 query common_stocks),
                 log2 ++ (CallInfo <$> fallback_tickers query common_stocks))
        | c :: found => (Ret (c :: found), log2)
        end
    end.
Proof.
  unfold search_stock, run, search_stock_body, try_except.
  fold no_results.
  rewrite (bind_Ret _ _ _ _ _ (direct_lookup_eq pv query log no_results)).
  destruct (complete_record (info_of pv log query)) as [c|];
    cbn [fmap option_fmap option_map]; [reflexivity|].
  rewrite (bind_Ret _ _ _ _ _
             (variation_sweep_eq pv query (log ++ [CallInfo query]) no_results)).
  unfold bind at 1. unfold gets at 1. cbn [fst snd]. cbv zeta.
  generalize (sweep_tickers query). intros tickers.
  generalize (fallback_eq pv query (log ++ [CallInfo query] ++ (CallInfo <$> tickers))).
  rewrite !app_assoc.
  generalize (sweep_frame pv (log ++ [CallInfo query]) tickers no_results).
  intros f2 Hfb.
  destruct (results f2) as [|c found] eqn:E.
  - rewrite (bind_Ret _ _ _ _ _ (Hfb f2)).
    unfold gets. cbn [fst snd results]. now rewrite E.
  - unfold bind, ret, gets. cbn [fst snd]. now rewrite E.
Qed.

(** ** The seen-set and the fallback table *)

Lemma no_results_deduplicated : deduplicated no_results.
Proof. split; [constructor|]. intros symbol H. inversion H. Qed.

Lemma add_candidate_deduplicated candidate f :
  deduplicated f -> deduplicated (add_candidate candidate f).
Proof.
  intros [Hnd Hseen]. destruct candidate as [[symbol longName]|]; simpl; [|now split].
  case_bool_decide as Hnew; [|now split].
  split; simpl.
  - rewrite fmap_app. simpl. apply NoDup_app. split; [assumption|].
    split; [|apply NoDup_singleton].
    intros x Hx Hx'. apply list_elem_of_singleton in Hx'. subst x.
    apply Hnew, Hseen, Hx.
  - intros x. rewrite fmap_app, elem_of_app. simpl.
    rewrite list_elem_of_singleton. intros [Hx| ->]; [|set_solver].
    apply elem_of_union_r, Hseen, Hx.
Qed.

Lemma sweep_frame_deduplicated (pv : Provider) log tickers f :
  deduplicated f -> deduplicated (sweep_frame pv log tickers f).
Proof.
  revert log f. induction tickers as [|t rest IH]; intros log f Hf; simpl.
  - assumption.
  - apply IH, add_candidate_deduplicated, Hf.
Qed.

Lemma fallback_rows_sublist (pv : Provider) log query table :
  fst <$> fallback_rows pv log query table `sublist_of` fst <$> table.
Proof.
  revert log. induction table as [|[symbol name] rest IH]; intros log.
  - constructor.
  - cbn [fallback_rows]. destruct (name_matches query (symbol, name)).
    + rewrite fmap_app.
      destruct (named_record _); simpl; [apply sublist_skip|apply sublist_cons]; apply IH.
    + simpl. apply sublist_cons, IH.
Qed.

Lemma fallback_tickers_app query pre post :
  fallback_tickers query (pre ++ post)
    = fallback_tickers query pre ++ fallback_tickers query post.
Proof. unfold fallback_tickers. now rewrite filter_app, fmap_app. Qed.

Lemma fallback_rows_app (pv : Provider) log query pre post :
  fallback_rows pv log query (pre ++ post) =
    fallback_rows pv log query pre
    ++ fallback_rows pv (log ++ (CallInfo <$> fallback_tickers query pre)) query post.
Proof.
  revert log. induction pre as [|[symbol name] pre IH]; intros log.
  - simpl. now rewrite app_nil_r.
  - cbn [app fallback_rows]. unfold fallback_tickers. rewrite filter_cons.
    destruct (name_matches query (symbol, name)) eqn:E.
    + rewrite decide_True by reflexivity. rewrite IH. simpl.
      rewrite <- !app_assoc. reflexivity.
    + rewrite decide_False by discriminate. apply IH.
Qed.

Lemma fallback_rows_elem_of (pv : Provider) log query table symbol longName :
  (symbol, longName) ∈ fallback_rows pv log query table <->
  exists pre company post d,
    table = pre ++ (symbol, company) :: post /\
    substring_of (lower query) (lower company) = true /\
    info_of pv (log ++ (CallInfo <$> fallback_tickers query pre)) symbol
      = Gives (Some d) /\
    d !! "longName" = Some longName.
Proof.
  revert log. induction table as [|[sy name] rest IH]; intros log.
  - simpl. split; [intros H; inversion H|].
    intros (pre & ? & ? & ? & E & _). now destruct pre.
  - cbn [fallback_rows]. split.
    + intros H. destruct (name_matches query (sy, name)) eqn:E.
      * apply elem_of_app in H as [H|H].
        -- unfold named_record in H.
           destruct (info_of pv log sy) as [|[d|]] eqn:Ei; try (now inversion H).
           destruct (d !! "longName") as [n|] eqn:Ed; [|now inversion H].
           apply list_elem_of_singleton in H. injection H as -> ->.
           exists [], name, rest, d. simpl. rewrite app_nil_r. auto.
        -- apply IH in H as (pre & company & post & d & -> & Hm & Hi & Hd).
           exists ((sy, name) :: pre), company, post, d.
           split; [reflexivity|]. split; [assumption|]. split; [|assumption].
           unfold fallback_tickers. rewrite filter_cons, decide_True by assumption.
           simpl. now rewrite <- app_assoc in Hi.
      * apply IH in H as (pre & company & post & d & -> & Hm & Hi & Hd).
        exists ((sy, name) :: pre), company, post, d.
        split; [reflexivity|]. split; [assumption|]. split; [|assumption].
        unfold fallback_tickers. rewrite filter_cons, decide_False by congruence.
        exact Hi.
    + intros ([|[s0 n0] pre] & company & post & d & E & Hm & Hi & Hd); simpl in E.
      * injection E as -> -> ->. unfold name_matches. simpl. rewrite Hm.
        simpl in Hi. rewrite app_nil_r in Hi. rewrite Hi. simpl. rewrite Hd.
        apply elem_of_app. left. now left.
      * injection E as -> -> ->.
        unfold fallback_tickers in Hi. rewrite filter_cons in Hi.
        destruct (name_matches query (s0, n0)) eqn:E.
        -- rewrite decide_True in Hi by reflexivity. simpl in Hi.
           apply elem_of_app. right. apply IH.
           exists pre, company, post, d. rewrite <- app_assoc. auto.
        -- rewrite decide_False in Hi by discriminate.
           apply IH. exists pre, company, post, d. auto.
Qed.

(** ** A provider that is down *)

Lemma sweep_frame_unreachable log tickers f :
  sweep_frame unreachable_provider log tickers f = f.
Proof.
  revert log f. induction tickers as [|t rest IH]; intros log f; simpl; [reflexivity|].
  apply IH.
Qed.

Lemma fallback_rows_unreachable log query table :
  fallback_rows unreachable_provider log query table = [].
Proof.
  revert log. induction table as [|[symbol name] rest IH]; intros log;
    cbn [fallback_rows]; [reflexivity|].
  destruct (name_matches query (symbol, name)); simpl; apply IH.
Qed.

Lemma get_stock_data_eq (pv : Provider) symbol period log :
  let interval := Some (if intraday period then "1m" else "1d") in
  let log1 := log ++ [CallHistory symbol period interval] in
  get_stock_data pv symbol period log =
    match history_of pv log symbol period interval with
    | Fails => (Ret (None, None), log1)
    | Gives hist =>
        match info_of pv log1 symbol with
        | Fails => (Ret (None, None), log1 ++ [CallInfo symbol])
        | Gives info => (Ret (Some hist, info), log1 ++ [CallInfo symbol])
        end
    end.
Proof.
  unfold get_stock_data, run, try_except, bind, call_history, call_info, ret.
  cbn [fst snd].
  destruct (history_of pv log symbol period _) as [|hist]; [reflexivity|].
  destruct (info_of pv _ symbol) as [|info]; reflexivity.
Qed.

(** ** Float division *)

Lemma fdiv_nonzero (x y : Q) : ~ (y == 0)%Q -> fdiv x y = Finite (x / y).
Proof.
  intros H. unfold fdiv. destruct (Qeq_bool y 0) eqn:E; [|reflexivity].
  apply Qeq_bool_iff in E. contradiction.
Qed.

Lemma Qgt0_opp (x : Q) : Qgt0 (- x) = true <-> (x < 0)%Q.
Proof.
  rewrite Qgt0_spec. split; intros H.
  - apply Qopp_lt_compat in H. now rewrite Qopp_involutive in H.
  - now apply Qopp_lt_compat in H.
Qed.

Lemma fdiv_zero (x y : Q) :
  (y == 0)%Q ->
  ((0 < x)%Q -> fdiv x y = PlusInf) /\
  ((x < 0)%Q -> fdiv x y = MinusInf) /\
  ((x == 0)%Q -> fdiv x y = NaN).
Proof.
  intros H. unfold fdiv. apply Qeq_bool_iff in H. rewrite H.
  split; [|split]; intros Hx.
  - apply Qgt0_spec in Hx. now rewrite Hx.
  - assert (H1 : Qgt0 x = false).
    { apply Qgt0_false. now apply Qlt_le_weak. }
    apply Qgt0_opp in Hx. now rewrite H1, Hx.
  - assert (H1 : Qgt0 x = false).
    { apply Qgt0_false. rewrite Hx. apply Qle_refl. }
    assert (H2 : Qgt0 (- x) = false).
    { apply Qgt0_false. rewrite Hx. discriminate. }
    now rewrite H1, H2.
Qed.

Lemma pct_zero_iff (p c : Q) :
  num_eq (times100 (fdiv (c - p) p)) (Finite 0) <-> ~ (p == 0)%Q /\ (c == p)%Q.
Proof.
  unfold fdiv. destruct (Qeq_bool p 0) eqn:E.
  - apply Qeq_bool_iff in E. split.
    + destruct (Qgt0 (c - p)); [contradiction|].
      destruct (Qgt0 (- (c - p))); contradiction.
    + intros [H _]. contradiction.
  - apply Qeq_bool_neq in E. simpl. split.
    + intros H. split; [assumption|].
      assert (H1 : ((c - p) / p == 0)%Q).
      { apply Qmult_integral in H as [H|H]; [assumption|discriminate H]. }
      unfold Qdiv in H1. apply Qmult_integral in H1 as [H1|H1].
      * rewrite <- (Qplus_0_l p). rewrite <- H1. ring.
      * exfalso. apply E. rewrite <- (Qinv_involutive p), H1. reflexivity.
    + intros [_ H]. rewrite H. field. assumption.
Qed.

(** ** Index Snapshot *)

(** C5.  Take any entry of the configured indices and the answer of the
    provider to its history call, asked after the calls of the entries
    before it.  If that answer has at least two sessions, the previous one
    closing at [p] and the latest at [c], then [get_world_indices] returns
    and its result has a row for this index with price [c], change [c - p],
    change% [(c - p) / p * 100] as the float division gives it, and the tag
    "green" exactly when change% is greater than 0, "red" otherwise.  For
    [p] other than 0 the change% is the number [(c - p) / p * 100]; for [p]
    equal to 0 it is plus infinity, minus infinity or NaN as [c - p] is
    positive, negative or zero.  On the closes 100, 110 the change is 10,
    the change% is 10 and the tag is "green". *)
Theorem index_row_from_two_closes :
  (forall (pv : Provider) (log : list Call) pre symbol name post
          (older : DataFrame) (previous latest : Bar),
      indices = pre ++ (symbol, name) :: post ->
      history_of pv (log ++ (history_call ∘ fst <$> pre)) symbol "2d" None
        = Gives (older ++ [previous; latest]) ->
      let p := Close previous in
      let c := Close latest in
      exists rows log' row,
        get_world_indices pv log = (Ret rows, log') /\
        row ∈ rows /\
        ix_Index row = name /\
        ix_Price row = c /\
        ix_Change row = (c - p)%Q /\
        ix_ChangePct row = times100 (fdiv (c - p) p) /\
        (~ (p == 0)%Q -> ix_ChangePct row = Finite ((c - p) / p * 100)) /\
        ((p == 0)%Q ->
           ((0 < c - p)%Q -> ix_ChangePct row = PlusInf) /\
           ((c - p < 0)%Q -> ix_ChangePct row = MinusInf) /\
           ((c - p == 0)%Q -> ix_ChangePct row = NaN)) /\
        (ix_Change_Color row = "green" <-> num_pos (ix_ChangePct row)) /\
        (ix_Change_Color row = "red" <-> ~ num_pos (ix_ChangePct row)))
  /\
  (exists row log',
      get_world_indices
        (book_provider {[ "^GSPC" := ([100%Q; 110%Q], None) ]}) []
        = (Ret [row], log') /\
      ix_Index row = "S&P 500" /\
      (ix_Change row == 10)%Q /\
      num_eq (ix_ChangePct row) (Finite 10) /\
      ix_Change_Color row = "green").
Proof.
  split.
  - intros pv log pre symbol name post older previous latest Htable Hanswer p c.
    unfold get_world_indices. rewrite snapshot_eq.
    exists (index_quotes pv log indices), (log ++ (history_call ∘ fst <$> indices)),
      (index_row name p c).
    split; [reflexivity|]. split.
    + apply index_quotes_elem_of. exists pre, symbol, name, post.
      split; [assumption|]. rewrite Hanswer. simpl.
      now rewrite last_two_snoc.
    + split; [reflexivity|]. split; [reflexivity|]. split; [reflexivity|].
      split; [reflexivity|]. cbn [index_row ix_ChangePct ix_Change_Color].
      split; [intros Hp; now rewrite fdiv_nonzero|].
      split.
      { intros Hp. destruct (fdiv_zero (c - p) p Hp) as (H1 & H2 & H3).
        split; [|split]; intros H.
        - now rewrite (H1 H).
        - now rewrite (H2 H).
        - now rewrite (H3 H). }
      destruct (num_gt0 _) eqn:E.
      * apply num_gt0_spec in E. split; split; try discriminate; try tauto.
      * assert (Hn : ~ num_pos (times100 (fdiv (c - p) p))).
        { intros H. apply num_gt0_spec in H. congruence. }
        split; split; try discriminate; try reflexivity; try tauto.
  - eexists _, _. split; [vm_compute; reflexivity|].
    repeat split; reflexivity.
Qed.

Lemma index_row_from_two_closes_witness :
  let pv := book_provider {[ "^DJI" := ([98%Q; 100%Q; 110%Q], None) ]} in
  indices = [("^GSPC", "S&P 500")] ++ ("^DJI", "Dow Jones") :: drop 2 indices /\
  history_of pv ([] ++ (history_call ∘ fst <$> [("^GSPC", "S&P 500")])) "^DJI" "2d" None
    = Gives ([session 98] ++ [session 100; session 110]) /\
  exists rows log' row,
    get_world_indices pv [] = (Ret rows, log') /\
    row ∈ rows /\
    ix_Index row = "Dow Jones" /\
    ix_Price row = 110%Q /\
    ix_Change row = (110 - 100)%Q /\
    ix_ChangePct row = Finite ((110 - 100) / 100 * 100).
Proof.
  intros pv.
  assert (H1 : indices
               = [("^GSPC", "S&P 500")] ++ ("^DJI", "Dow Jones") :: drop 2 indices)
    by reflexivity.
  assert (H2 : history_of pv ([] ++ (history_call ∘ fst <$> [("^GSPC", "S&P 500")]))
                 "^DJI" "2d" None
               = Gives ([session 98] ++ [session 100; session 110]))
    by (vm_compute; reflexivity).
  split; [exact H1|]. split; [exact H2|].
  destruct (proj1 index_row_from_two_closes pv [] _ _ _ _ _ _ _ H1 H2)
    as (rows & log' & row & E & Hin & Hn & Hp & Hc & _ & Hpct & _).
  exists rows, log', row. repeat split; try assumption.
  apply Hpct. discriminate.
Defined.

(** C10.  [get_world_indices] returns, after one history call per
    configured index, the rows of a sub-list of the configured list, in the
    configured order (S&P 500, Dow Jones, NASDAQ, FTSE 100, Nikkei 225,
    Hang Seng, DAX, CAC 40): an index has a row exactly when the provider,
    asked after the indices before it, answered with at least two
    sessions. *)
Theorem snapshot_keeps_configured_order (pv : Provider) (log : list Call) :
  snd <$> indices
    = ["S&P 500"; "Dow Jones"; "NASDAQ"; "FTSE 100"; "Nikkei 225";
       "Hang Seng"; "DAX"; "CAC 40"] /\
  NoDup (snd <$> indices) /\
  exists rows,
    get_world_indices pv log
      = (Ret rows, log ++ (history_call ∘ fst <$> indices)) /\
    ix_Index <$> rows `sublist_of` snd <$> indices /\
    forall name,
      name ∈ ix_Index <$> rows <->
      exists pre symbol post hist,
        indices = pre ++ (symbol, name) :: post /\
        history_of pv (log ++ (history_call ∘ fst <$> pre)) symbol "2d" None
          = Gives hist /\
        (2 <= length hist)%nat.
Proof.
  split; [reflexivity|]. split; [apply (bool_decide_unpack _); vm_compute; exact I|].
  exists (index_quotes pv log indices).
  split; [apply snapshot_eq|]. split; [apply index_quotes_names_sublist|].
  intros name. rewrite list_elem_of_fmap. split.
  - intros (row & -> & Hrow).
    apply index_quotes_elem_of in Hrow as (pre & symbol & name & post & E & Hq).
    rewrite (index_quote_name _ _ _ Hq).
    destruct (proj1 (index_quote_is_Some name _) (mk_is_Some _ _ Hq))
      as (hist & Hh & Hlen).
    now exists pre, symbol, post, hist.
  - intros (pre & symbol & post & hist & E & Hh & Hlen).
    destruct (proj2 (index_quote_is_Some name
                (history_of pv (log ++ (history_call ∘ fst <$> pre)) symbol "2d" None)))
      as [row Hrow]; [eauto|].
    exists row. split; [symmetry; eapply index_quote_name; eassumption|].
    apply index_quotes_elem_of. now exists pre, symbol, name, post.
Qed.

Lemma snapshot_keeps_configured_order_witness :
  let pv := book_provider {[ "^FTSE" := ([7000%Q; 7100%Q], None) ]} in
  exists rows log', get_world_indices pv [] = (Ret rows, log') /\
                    ix_Index <$> rows = ["FTSE 100"].
Proof.
  intros pv.
  destruct (snapshot_keeps_configured_order pv []) as (_ & _ & rows & E & _ & _).
  exists rows, ([] ++ (history_call ∘ fst <$> indices)). split; [exact E|].
  assert (E' : fst (get_world_indices pv []) = Ret rows) by now rewrite E.
  vm_compute in E'. injection E' as <-. reflexivity.
Defined.

(** C6.  (1) In [snapshot], an index contributes, between the rows of the
    indices before it and those of the indices after it, one row computed
    from the two most recent sessions of its history, whatever the older
    sessions are, and nothing when the fetch raises or gives fewer than two
    sessions; the call never raises.  (2) [rank] never raises and every row
    it returns belongs to a watchlist symbol whose history had at least two
    sessions and whose record has a display name, and is computed from the
    two most recent sessions.  (3) A snapshot over one index that raises and
    one that answers with the closes 100, 110 returns exactly one row. *)
Theorem two_latest_sessions_or_omitted :
  (forall (pv : Provider) pre symbol name post (log : list Call),
      exists before after log1 log2,
        snapshot pv pre log = (Ret before, log1) /\
        snapshot pv post (log1 ++ [history_call symbol]) = (Ret after, log2) /\
        snapshot pv (pre ++ (symbol, name) :: post) log =
          (Ret (before
                ++ match history_of pv log1 symbol "2d" None with
                   | Gives hist =>
                       match reverse hist with
                       | latest :: previous :: _ =>
                           [index_row name (Close previous) (Close latest)]
                       | _ => []
                       end
                   | Fails => []
                   end
                ++ after),
           log2))
  /\
  (forall (pv : Provider) (watchlist : list string) (log : list Call),
      exists top_gainers top_losers log',
        rank pv watchlist log = (Ret (top_gainers, top_losers), log') /\
        forall row, row ∈ top_gainers ++ top_losers ->
          exists pre symbol post older previous latest d longName,
            watchlist = pre ++ symbol :: post /\
            let asked := snd (rank pv pre log) in
            history_of pv asked symbol "2d" None
              = Gives (older ++ [previous; latest]) /\
            info_of pv (asked ++ [history_call symbol]) symbol = Gives (Some d) /\
            d !! "longName" = Some longName /\
            row = mover_row symbol longName (Close previous) (Close latest))
  /\
  snapshot (book_provider {[ "^DJI" := ([100%Q; 110%Q], None) ]})
           [("^BAD", "Broken"); ("^DJI", "Dow Jones")] []
    = (Ret [index_row "Dow Jones" 100 110],
       [history_call "^BAD"; history_call "^DJI"]).
Proof.
  split; [|split].
  - intros pv pre symbol name post log.
    exists (index_quotes pv log pre),
      (index_quotes pv ((log ++ (history_call ∘ fst <$> pre)) ++ [history_call symbol]) post),
      (log ++ (history_call ∘ fst <$> pre)),
      (((log ++ (history_call ∘ fst <$> pre)) ++ [history_call symbol])
         ++ (history_call ∘ fst <$> post)).
    rewrite !snapshot_eq, index_quotes_app. simpl.
    split; [reflexivity|]. split; [reflexivity|].
    f_equal.
    + f_equal. f_equal. f_equal.
      destruct (history_of pv _ symbol "2d" None) as [|hist]; simpl; [reflexivity|].
      unfold last_two. now destruct (reverse hist) as [|b1 [|b2 r]].
    + rewrite fmap_app. simpl. now rewrite <- !app_assoc.
  - intros pv watchlist log. rewrite rank_eq. eexists _, _, _.
    split; [reflexivity|].
    intros row Hrow.
    assert (Hin : row ∈ mover_quotes pv log watchlist).
    { apply elem_of_app in Hrow as [H|H]; apply list_elem_of_fmap in H as ([k r] & -> & H);
        apply subseteq_take in H.
      - eapply elem_of_Permutation_proper in H;
          [|symmetry; apply sorted_desc_Permutation].
        apply list_elem_of_fmap in H as (r' & [= -> ->] & H).
        now apply list_elem_of_filter in H as [_ H].
      - eapply elem_of_Permutation_proper in H;
          [|symmetry; apply sorted_asc_Permutation].
        apply list_elem_of_fmap in H as (r' & [= -> ->] & H).
        now apply list_elem_of_filter in H as [_ H]. }
    apply mover_quotes_elem_of in Hin as (pre & symbol & post & -> & Hq).
    apply mover_quote_Some in Hq
      as (older & previous & latest & d & longName & Hh & Hi & Hd & ->).
    exists pre, symbol, post, older, previous, latest, d, longName.
    rewrite rank_log. auto.
  - vm_compute. reflexivity.
Qed.

Lemma two_latest_sessions_or_omitted_witness :
  exists top_gainers top_losers log' row pre post older previous latest d longName,
    rank four_movers ["AAPL"; "IBM"] [] = (Ret (top_gainers, top_losers), log') /\
    row ∈ top_gainers ++ top_losers /\
    ["AAPL"; "IBM"] = pre ++ "AAPL" :: post /\
    history_of four_movers (snd (rank four_movers pre [])) "AAPL" "2d" None
      = Gives (older ++ [previous; latest]) /\
    info_of four_movers (snd (rank four_movers pre []) ++ [history_call "AAPL"]) "AAPL"
      = Gives (Some d) /\
    d !! "longName" = Some longName /\
    row = mover_row "AAPL" longName (Close previous) (Close latest).
Proof.
  destruct (proj1 (proj2 two_latest_sessions_or_omitted)
              four_movers ["AAPL"; "IBM"] [])
    as (tg & tl & log' & E & H).
  assert (E' : fst (rank four_movers ["AAPL"; "IBM"] []) = Ret (tg, tl))
    by now rewrite E.
  vm_compute in E'. injection E' as <- <-.
  destruct (H (mover_row "AAPL" "Apple Inc." 100 105))
    as (pre & symbol & post & older & previous & latest & d & longName
        & Hw & Hh & Hi & Hd & Hrow).
  { vm_compute. left. }
  assert (Hs : "AAPL" = symbol) by exact (f_equal mv_Symbol Hrow).
  subst symbol.
  eexists _, _, log', (mover_row "AAPL" "Apple Inc." 100 105),
    pre, post, older, previous, latest, d, longName.
  split; [exact E|]. split; [left|]. auto.
Defined.

(** ** Movers Ranker *)




(** C9.  A watchlist symbol with two sessions and a display name whose
    change% is exactly zero, which is the case when its previous close is
    not 0 and equals its latest close, is appended to [losers], not to
    [gainers], with the tag "red"; a watchlist where only such a symbol can
    be fetched returns it as the one loser. *)
Theorem zero_change_is_loser :
  (forall (pv : Provider) (log : list Call) (f : MoversFrame) symbol
          (older : DataFrame) (previous latest : Bar) d longName,
      history_of pv log symbol "2d" None = Gives (older ++ [previous; latest]) ->
      info_of pv (log ++ [history_call symbol]) symbol = Gives (Some d) ->
      d !! "longName" = Some longName ->
      let row := mover_row symbol longName (Close previous) (Close latest) in
      num_eq (mv_ChangePct row) (Finite 0) ->
      mover_step pv symbol (log, f) =
        (Ret tt, (log ++ [history_call symbol; CallInfo symbol],
                  {| gainers := gainers f;
                     losers := losers f ++ [(mv_ChangePct row, row)] |})) /\
      mv_Change_Color row = "red")
  /\
  (forall symbol longName (p c : Q),
      num_eq (mv_ChangePct (mover_row symbol longName p c)) (Finite 0) <->
      ~ (p == 0)%Q /\ (c == p)%Q)
  /\
  (exists row log',
      get_top_movers
        (book_provider
           {[ "KO" := ([60%Q; 60%Q], full_record "KO" "The Coca-Cola Company") ]}) []
        = (Ret ([], [row]), log') /\
      mv_Symbol row = "KO" /\
      num_eq (mv_ChangePct row) (Finite 0) /\
      mv_Change_Color row = "red").
Proof.
  split; [|split].
  - intros pv log f symbol older previous latest d longName Hh Hi Hd row Hz.
    assert (Hg : is_gainer row = false).
    { unfold is_gainer. destruct (mv_ChangePct row) as [q| | |]; try contradiction.
      simpl in Hz. simpl. apply Qgt0_false. rewrite Hz. apply Qle_refl. }
    rewrite mover_step_eq. unfold mover_calls, mover_quote_at.
    rewrite Hh, Hi. simpl. rewrite last_two_snoc. simpl. rewrite Hd. simpl.
    fold row. rewrite Hg. split; [reflexivity|].
    unfold is_gainer in Hg. subst row. simpl in *. now rewrite Hg.
  - intros symbol longName p c. apply pct_zero_iff.
  - eexists _, _. split; [vm_compute; reflexivity|].
    repeat split; reflexivity.
Qed.

Lemma zero_change_is_loser_witness :
  let pv := uniform_provider [59%Q; 60%Q; 60%Q] (name_only_record "Flat Inc.") in
  let row := mover_row "KO" "Flat Inc." 60 60 in
  mover_step pv "KO" ([], {| gainers := []; losers := [] |}) =
    (Ret tt, ([history_call "KO"; CallInfo "KO"],
              {| gainers := []; losers := [(mv_ChangePct row, row)] |})) /\
  mv_Change_Color row = "red".
Proof.
  intros pv row.
  refine (proj1 zero_change_is_loser pv [] {| gainers := []; losers := [] |} "KO"
            [session 59] (session 60) (session 60)
            {[ "longName" := "Flat Inc." ]} "Flat Inc." _ _ _ _).
  - reflexivity.
  - reflexivity.
  - vm_compute. reflexivity.
  - vm_compute. reflexivity.
Defined.

(** ** Symbol Resolver *)

(** C1.  When the provider answers the direct lookup of the query with a
    record that has a resolved symbol and a display name, [search_stock]
    returns the one candidate made of them, and the only call it has made
    is that lookup: no probe of the variation sweep, no probe of the
    fallback table. *)
Theorem direct_hit_returns_single (pv : Provider) (query : string)
    (log : list Call) (d : gmap string string) (symbol longName : string) :
  info_of pv log query = Gives (Some d) ->
  d !! "symbol" = Some symbol ->
  d !! "longName" = Some longName ->
  search_stock pv query log = (Ret [(symbol, longName)], log ++ [CallInfo query]).
Proof.
  intros Hi Hs Hn. rewrite search_stock_eq, Hi.
  unfold complete_record. rewrite Hn. cbn [mbind option_bind].
  rewrite Hs. reflexivity.
Qed.

Lemma direct_hit_returns_single_witness :
  search_stock two_listings "AAPL" [] = (Ret [("AAPL", "Apple Inc.")], [CallInfo "AAPL"]).
Proof.
  refine (direct_hit_returns_single two_listings "AAPL" []
            {[ "symbol" := "AAPL"; "longName" := "Apple Inc." ]}
            "AAPL" "Apple Inc." _ _ _).
  - vm_compute. reflexivity.
  - vm_compute. reflexivity.
  - vm_compute. reflexivity.
Defined.

(** C2.  Whatever the provider does, [search_stock] returns a list in which
    no two candidates have the same symbol; a provider that resolves two
    tickers of the sweep to one symbol yields that symbol once. *)
Theorem search_symbols_unique :
  (forall (pv : Provider) (query : string) (log : list Call),
      exists candidates log',
        search_stock pv query log = (Ret candidates, log') /\
        NoDup (fst <$> candidates))
  /\
  fst (search_stock two_listings "aapl" []) = Ret [("AAPL", "Apple Inc.")].
Proof.
  split; [|vm_compute; reflexivity].
  intros pv query log. rewrite search_stock_eq.
  destruct (complete_record (info_of pv log query)) as [c|].
  - eexists _, _. split; [reflexivity|]. simpl. apply NoDup_singleton.
  - cbv zeta.
    destruct (sweep_frame_deduplicated pv (log ++ [CallInfo query])
                (sweep_tickers query) no_results no_results_deduplicated)
      as [Hnd _].
    destruct (results _) as [|c found].
    + eexists _, _. split; [reflexivity|].
      apply (sublist_NoDup _ (fst <$> common_stocks));
        [|apply fallback_rows_sublist].
      apply (bool_decide_unpack _). vm_compute. exact I.
    + eexists _, _. split; [reflexivity|assumption].
Qed.

(** C3.  (1) [search_stock] always returns a list, whatever the provider
    does.  (2) [get_stock_data] always returns: the pair of what the
    provider gave when both calls succeed, and [(None, None)] as soon as one
    of them raises.  (3) A provider call that raises, finds nothing or gives
    a record without the required fields is absorbed where it is made: the
    direct lookup falls through and the probe leaves [results] and
    [seen_symbols] as they were; likewise for a table entry of the fallback
    whose record has no display name.  (4) With a provider that raises on
    every call, [search_stock] returns the empty list. *)
Theorem provider_failures_absorbed :
  (forall (pv : Provider) (query : string) (log : list Call),
      exists candidates log', search_stock pv query log = (Ret candidates, log'))
  /\
  (forall (pv : Provider) (symbol period : string) (log : list Call),
      let interval := Some (if intraday period then "1m" else "1d") in
      let log1 := log ++ [CallHistory symbol period interval] in
      get_stock_data pv symbol period log =
        match history_of pv log symbol period interval with
        | Fails => (Ret (None, None), log1)
        | Gives hist =>
            match info_of pv log1 symbol with
            | Fails => (Ret (None, None), log1 ++ [CallInfo symbol])
            | Gives info => (Ret (Some hist, info), log1 ++ [CallInfo symbol])
            end
        end)
  /\
  (forall (pv : Provider) (ticker : string) (log : list Call) (f : SearchFrame),
      info_of pv log ticker = Fails \/
      info_of pv log ticker = Gives None \/
      (exists d, info_of pv log ticker = Gives (Some d) /\
                 (d !! "symbol" = None \/ d !! "longName" = None)) ->
      direct_lookup pv ticker (log, f) = (Ret None, (log ++ [CallInfo ticker], f)) /\
      try_except (probe pv ticker) (fun _ => ret tt) (log, f)
        = (Ret tt, (log ++ [CallInfo ticker], f)))
  /\
  (forall (pv : Provider) (query symbol company : string) (log : list Call)
          (f : SearchFrame),
      info_of pv log symbol = Fails \/
      info_of pv log symbol = Gives None \/
      (exists d, info_of pv log symbol = Gives (Some d) /\ d !! "longName" = None) ->
      exists log', fallback_step pv (lower query) (symbol, company) (log, f)
                   = (Ret tt, (log', f)))
  /\
  (forall (query : string) (log : list Call),
      fst (search_stock unreachable_provider query log) = Ret [] /\
      fst (get_stock_data unreachable_provider query "1y" log) = Ret (None, None)).
Proof.
  split; [|split; [|split; [|split]]].
  - intros pv query log. rewrite search_stock_eq.
    destruct (complete_record _); [eauto|]. cbv zeta.
    destruct (results _); eauto.
  - intros pv symbol period log. apply get_stock_data_eq.
  - intros pv ticker log f H.
    assert (Hc : complete_record (info_of pv log ticker) = None).
    { destruct H as [-> | [-> | (d & -> & [Hd|Hd])]]; simpl; try reflexivity.
      - destruct (d !! "longName"); simpl; [now rewrite Hd|reflexivity].
      - now rewrite Hd. }
    rewrite direct_lookup_eq, probe_eq, Hc. split; reflexivity.
  - intros pv query symbol company log f H.
    assert (Hc : named_record (info_of pv log symbol) = None).
    { destruct H as [-> | [-> | (d & -> & Hd)]]; simpl; auto. }
    rewrite fallback_step_eq, Hc.
    destruct (name_matches _ _); eexists; [|reflexivity].
    rewrite app_nil_r. now destruct f.
  - intros query log. split.
    + rewrite search_stock_eq.
      change (info_of unreachable_provider log query) with (@Fails Info).
      cbn [complete_record]. cbv zeta.
      rewrite sweep_frame_unreachable. cbn [results no_results].
      now rewrite fallback_rows_unreachable.
    + rewrite get_stock_data_eq. reflexivity.
Qed.

Lemma provider_failures_absorbed_witness :
  let seen := {| results := [("MSFT", "Microsoft Corporation")];
                 seen_symbols := {[ "MSFT" ]} |} in
  let pv := uniform_provider [] (name_only_record "Apple Inc.") in
  direct_lookup pv "AAPL" ([], seen) = (Ret None, ([CallInfo "AAPL"], seen)) /\
  try_except (probe pv "AAPL") (fun _ => ret tt) ([], seen)
    = (Ret tt, ([CallInfo "AAPL"], seen)).
Proof.
  intros seen pv.
  refine (proj1 (proj2 (proj2 provider_failures_absorbed)) pv "AAPL" [] seen _).
  right. right. exists {[ "longName" := "Apple Inc." ]}.
  split; [reflexivity|]. left. vm_compute. reflexivity.
Defined.

(** C7.  The fallback table is consulted only when the direct lookup
    missed and the variation sweep found no candidate: after a direct hit
    the result is that hit and the log stops after the lookup, and after a
    sweep that found candidates the result is what the sweep found and the
    log stops after the sweep.  Otherwise the result is made of exactly the
    table entries whose company name, lower-cased, contains the lower-cased
    query and whose ticker, asked again in table order, is answered with a
    record that has a display name; the candidates come in table order. *)
Theorem fallback_only_after_empty_sweep (pv : Provider) (query : string)
    (log : list Call) :
  exists direct log1,
    tier1 pv query log = (Ret direct, log1) /\
    match direct with
    | Some hit => search_stock pv query log = (Ret hit, log1)
    | None =>
        exists found log2,
          tier2 pv query log1 = (Ret found, log2) /\
          match found with
          | _ :: _ => search_stock pv query log = (Ret found, log2)
          | [] =>
              exists candidates,
                search_stock pv query log
                  = (Ret candidates,
                     log2 ++ (CallInfo <$> fallback_tickers query common_stocks)) /\
                fst <$> candidates `sublist_of` fst <$> common_stocks /\
                forall symbol longName,
                  (symbol, longName) ∈ candidates <->
                  exists pre company post d,
                    common_stocks = pre ++ (symbol, company) :: post /\
                    substring_of (lower query) (lower company) = true /\
                    info_of pv (log2 ++ (CallInfo <$> fallback_tickers query pre))
                      symbol = Gives (Some d) /\
                    d !! "longName" = Some longName
          end
    end.
Proof.
  rewrite tier1_eq, search_stock_eq. eexists _, _. split; [reflexivity|].
  destruct (complete_record (info_of pv log query)) as [c|];
    cbn [fmap option_fmap option_map]; [reflexivity|].
  rewrite tier2_eq. eexists _, _. split; [reflexivity|].
  destruct (results _) as [|c found]; [|reflexivity].
  eexists. split; [reflexivity|]. split; [apply fallback_rows_sublist|].
  intros symbol longName. apply fallback_rows_elem_of.
Qed.

Lemma fallback_only_after_empty_sweep_witness :
  exists candidates log',
    search_stock other_listing "apple" [] = (Ret candidates, log') /\
    ("AAPL", "Apple Inc.") ∈ candidates.
Proof.
  destruct (fallback_only_after_empty_sweep other_listing "apple" [])
    as (direct & log1 & E1 & H).
  assert (E1' : fst (tier1 other_listing "apple" []) = Ret direct) by now rewrite E1.
  assert (L1 : snd (tier1 other_listing "apple" []) = log1) by now rewrite E1.
  vm_compute in E1'. injection E1' as <-.
  destruct H as (found & log2 & E2 & H).
  assert (E2' : fst (tier2 other_listing "apple" log1) = Ret found) by now rewrite E2.
  rewrite <- L1 in E2'. vm_compute in E2'. injection E2' as <-.
  destruct H as (candidates & E & _ & H).
  eexists candidates, _. split; [exact E|].
  apply H. exists [], "Apple", (drop 1 common_stocks),
    {[ "symbol" := "AAPL.MX"; "longName" := "Apple Inc." ]}.
  split; [reflexivity|]. split; [reflexivity|]. split; reflexivity.
Defined.

(** C8.  A matching table entry whose record has a display name yields the
    candidate made of the ticker of the table and that display name,
    whatever the record says about its resolved symbol and also when it has
    none; the direct lookup and the probes of the sweep yield nothing for a
    record that lacks either field.  Asked for "apple", a provider that
    resolves AAPL to AAPL.MX gives the candidate AAPL, and so does a
    provider whose records have no resolved symbol. *)
Theorem fallback_keeps_table_ticker :
  (forall (pv : Provider) (query symbol company : string) (log : list Call)
          (f : SearchFrame) (d : gmap string string) (longName : string),
      substring_of (lower query) (lower company) = true ->
      info_of pv log symbol = Gives (Some d) ->
      d !! "longName" = Some longName ->
      fallback_step pv (lower query) (symbol, company) (log, f) =
        (Ret tt, (log ++ [CallInfo symbol],
                  {| results := results f ++ [(symbol, longName)];
                     seen_symbols := seen_symbols f |})))
  /\
  (forall (pv : Provider) (ticker : string) (log : list Call) (f : SearchFrame)
          (d : gmap string string),
      info_of pv log ticker = Gives (Some d) ->
      d !! "symbol" = None \/ d !! "longName" = None ->
      direct_lookup pv ticker (log, f) = (Ret None, (log ++ [CallInfo ticker], f)) /\
      try_except (probe pv ticker) (fun _ => ret tt) (log, f)
        = (Ret tt, (log ++ [CallInfo ticker], f)))
  /\
  fst (search_stock other_listing "apple" []) = Ret [("AAPL", "Apple Inc.")]
  /\
  fst (search_stock (uniform_provider [] (name_only_record "Apple Inc.")) "apple" [])
    = Ret [("AAPL", "Apple Inc.")].
Proof.
  split; [|split; [|split]].
  - intros pv query symbol company log f d longName Hm Hi Hd.
    rewrite fallback_step_eq. unfold name_matches. simpl.
    rewrite Hm, Hi. simpl. now rewrite Hd.
  - intros pv ticker log f d Hi Hd.
    assert (Hc : complete_record (info_of pv log ticker) = None).
    { rewrite Hi. simpl. destruct Hd as [Hd|Hd].
      - destruct (d !! "longName"); simpl; [now rewrite Hd|reflexivity].
      - now rewrite Hd. }
    rewrite direct_lookup_eq, probe_eq, Hc. split; reflexivity.
  - vm_compute. reflexivity.
  - vm_compute. reflexivity.
Qed.

Lemma fallback_keeps_table_ticker_witness :
  fallback_step (uniform_provider [] (name_only_record "Tesla, Inc."))
      (lower "TESLA") ("TSLA", "Tesla") ([], no_results)
    = (Ret tt, ([CallInfo "TSLA"],
                {| results := [("TSLA", "Tesla, Inc.")]; seen_symbols := ∅ |})).
Proof.
  refine (proj1 fallback_keeps_table_ticker
            (uniform_provider [] (name_only_record "Tesla, Inc."))
            "TESLA" "TSLA" "Tesla" [] no_results
            {[ "longName" := "Tesla, Inc." ]} "Tesla, Inc." _ _ _).
  - vm_compute. reflexivity.
  - reflexivity.
  - vm_compute. reflexivity.
Defined.

(** * Further properties of the code *)

(** ** Strings *)

Lemma lower_upper_ascii (c : ascii) : lower_ascii (upper_ascii c) = lower_ascii c.
Proof. destruct c as [[] [] [] [] [] [] [] []]; reflexivity. Qed.

Lemma upper_lower_ascii (c : ascii) : upper_ascii (lower_ascii c) = upper_ascii c.
Proof. destruct c as [[] [] [] [] [] [] [] []]; reflexivity. Qed.

Lemma upper_upper_ascii (c : ascii) : upper_ascii (upper_ascii c) = upper_ascii c.
Proof. destruct c as [[] [] [] [] [] [] [] []]; reflexivity. Qed.

Lemma upper_ascii_space (c : ascii) : upper_ascii c = " "%char -> c = " "%char.
Proof. destruct c as [[] [] [] [] [] [] [] []]; intros H; try reflexivity; discriminate H. Qed.

Lemma lower_upper (s : string) : lower (upper s) = lower s.
Proof.
  unfold lower, upper. induction s as [|c s IH]; simpl; [reflexivity|].
  now rewrite lower_upper_ascii, IH.
Qed.

Lemma upper_upper (s : string) : upper (upper s) = upper s.
Proof.
  unfold upper. induction s as [|c s IH]; simpl; [reflexivity|].
  now rewrite upper_upper_ascii, IH.
Qed.

Lemma prefix_spec (p s : string) :
  String.prefix p s = true <-> exists post, s = p +:+ post.
Proof.
  revert s. induction p as [|c p IH]; intros s.
  - split; [intros _; now exists s|intros _; now destruct s].
  - destruct s as [|c' s]; simpl;
      [split; [discriminate|intros [post H]; discriminate]|].
    destruct (Ascii.ascii_dec c c') as [->|Hne].
    + rewrite IH. split; intros [post H]; exists post; [now rewrite H|].
      now injection H.
    + split; [discriminate|]. intros [post H]. injection H as -> _. contradiction.
Qed.

(** X4.  [needle in hay] (line 164) holds exactly when [hay] is some text,
    then [needle], then some text; in particular the empty needle is in
    every string. *)
Theorem substring_of_spec (needle hay : string) :
  substring_of needle hay = true <->
  exists pre post, hay = pre +:+ needle +:+ post.
Proof.
  induction hay as [|c hay IH]; cbn [substring_of].
  - rewrite orb_false_r, prefix_spec. split.
    + intros [post H]. now exists "", post.
    + intros ([|c pre] & post & H); [now exists post|discriminate].
  - rewrite orb_true_iff, prefix_spec, IH. split.
    + intros [[post H]|(pre & post & H)].
      * now exists "", post.
      * exists (String c pre), post. simpl. now rewrite H.
    + intros ([|c' pre] & post & H).
      * left. now exists post.
      * right. injection H as -> H. now exists pre, post.
Qed.

Lemma substring_of_spec_witness :
  substring_of "pple" "apple" = true <->
  exists pre post, "apple" = pre +:+ "pple" +:+ post.
Proof. exact (substring_of_spec "pple" "apple"). Defined.

Lemma lower_lower_ascii (c : ascii) : lower_ascii (lower_ascii c) = lower_ascii c.
Proof. destruct c as [[] [] [] [] [] [] [] []]; reflexivity. Qed.

Lemma lower_lower (s : string) : lower (lower s) = lower s.
Proof.
  unfold lower. induction s as [|c s IH]; simpl; [reflexivity|].
  now rewrite lower_lower_ascii, IH.
Qed.

Lemma replace_space_free (new s : string) :
  space_free s -> replace_space new s = s.
Proof.
  unfold space_free, chars. induction s as [|c s IH]; simpl; [reflexivity|].
  intros H. apply not_elem_of_cons in H as [Hc Hs].
  destruct (Ascii.eqb_spec c " "); [congruence|]. now rewrite IH.
Qed.

Lemma upper_space_free (s : string) : space_free s -> space_free (upper s).
Proof.
  unfold space_free, chars, upper. induction s as [|c s IH]; simpl; [easy|].
  intros H. apply not_elem_of_cons in H as [Hc Hs].
  apply not_elem_of_cons. split; [|now apply IH].
  intros E. symmetry in E. apply upper_ascii_space in E. congruence.
Qed.

(** ** Symbol Resolver *)

(** X3.  The fallback of [search_stock] (lines 162-172) reads the query
    through [query.lower()] only: for an ASCII query it makes the same
    calls and adds the same candidates for the query, for its upper-cased
    form (the form app.py passes) and for its lower-cased form. *)
Theorem fallback_ignores_query_case (pv : Provider) (query : string)
    (s : list Call * SearchFrame) :
  ascii_only query ->
  fallback pv (upper query) s = fallback pv query s /\
  fallback pv (lower query) s = fallback pv query s /\
  fallback_tickers (upper query) common_stocks = fallback_tickers query common_stocks.
Proof.
  intros _. unfold fallback, fallback_tickers, name_matches.
  now rewrite lower_upper, lower_lower.
Qed.

Lemma fallback_ignores_query_case_witness :
  fallback other_listing (upper "Apple") ([], no_results)
  = fallback other_listing "Apple" ([], no_results).
Proof.
  refine (proj1 (fallback_ignores_query_case other_listing "Apple"
                   ([], no_results) _)).
  apply (bool_decide_unpack _). vm_compute. exact I.
Defined.

(** X5.  For an ASCII text without spaces that is upper-cased before the
    search, as app.py does, the first four variations of lines 114-121 are
    all the query itself, so the sweep probes the query and its six
    suffixes four times over. *)
Theorem variations_of_upper_cased (text : string) :
  ascii_only text ->
  space_free text ->
  let query := upper text in
  variations query
    = [query; query; query; query; lower text;
       join " " (capitalize <$> split query)].
Proof.
  intros _ H query. unfold variations.
  assert (Hq : space_free query) by now apply upper_space_free.
  rewrite !(replace_space_free _ _ Hq).
  subst query. now rewrite upper_upper, lower_upper.
Qed.

Lemma variations_of_upper_cased_witness :
  variations (upper "aapl")
  = ["AAPL"; "AAPL"; "AAPL"; "AAPL"; "aapl"; "Aapl"].
Proof.
  refine (variations_of_upper_cased "aapl" _ _).
  - apply (bool_decide_unpack _). vm_compute. exact I.
  - unfold space_free. apply (bool_decide_unpack _). vm_compute. exact I.
Defined.

Lemma length_sweep_tickers (query : string) : length (sweep_tickers query) = 36%nat.
Proof.
  unfold sweep_tickers, variations.
  rewrite !bind_cons, !length_app, !bind_singleton_fmap, !length_fmap.
  reflexivity.
Qed.

Lemma length_fallback_tickers (query : string) :
  (length (fallback_tickers query common_stocks) <= 8)%nat.
Proof.
  unfold fallback_tickers. rewrite length_fmap.
  etransitivity; [apply length_filter|]. reflexivity.
Qed.

Lemma append_empty_r (s : string) : s +:+ "" = s.
Proof.
  induction s as [|c s IH]; [reflexivity|].
  change (String c (s +:+ "") = String c s). now rewrite IH.
Qed.

Lemma sweep_tickers_head (query : string) :
  exists rest, sweep_tickers query = query :: rest.
Proof.
  unfold sweep_tickers, variations. rewrite bind_cons.
  unfold suffixes at 1. rewrite bind_cons, append_empty_r.
  cbn [app]. eexists. reflexivity.
Qed.

(** X1.  [search_stock] only reads [stock.info]; the calls it makes are
    added to the log.  It starts with the direct lookup of the query; on a
    direct hit that is its only call, and otherwise it makes the 36 probes
    of the sweep, the first of them for the query again, and at most the 8
    look-ups of the fallback table: between 37 and 45 calls. *)
Theorem search_call_budget (pv : Provider) (query : string) (log : list Call) :
  exists calls,
    snd (search_stock pv query log) = log ++ calls /\
    Forall (fun c => is_info_call c = true) calls /\
    take 1 calls = [CallInfo query] /\
    match fst (tier1 pv query log) with
    | Ret (Some _) => calls = [CallInfo query]
    | _ => take 2 calls = [CallInfo query; CallInfo query] /\
           (37 <= length calls <= 45)%nat
    end.
Proof.
  rewrite search_stock_eq, tier1_eq. cbn [fst].
  destruct (complete_record (info_of pv log query)) as [c|];
    cbn [fmap option_fmap option_map].
  - exists [CallInfo query]. repeat split. repeat constructor.
  - cbv zeta.
    pose proof (length_sweep_tickers query) as L36.
    pose proof (length_fallback_tickers query) as L8.
    destruct (sweep_tickers_head query) as [rest Hrest].
    assert (Hinfo : forall l : list string,
               Forall (fun c => is_info_call c = true) (CallInfo <$> l)).
    { intros l. apply Forall_fmap, Forall_true. reflexivity. }
    destruct (results _).
    + exists ([CallInfo query] ++ (CallInfo <$> sweep_tickers query)
                ++ (CallInfo <$> fallback_tickers query common_stocks)).
      cbn [snd]. split; [now rewrite <- !app_assoc|].
      split; [repeat apply Forall_app_2; auto; repeat constructor|].
      split; [reflexivity|]. split; [now rewrite Hrest|].
      rewrite !length_app, !length_fmap, L36. simpl. lia.
    + exists ([CallInfo query] ++ (CallInfo <$> sweep_tickers query)).
      cbn [snd]. split; [now rewrite <- !app_assoc|].
      split; [repeat apply Forall_app_2; auto; repeat constructor|].
      split; [reflexivity|]. split; [now rewrite Hrest|].
      rewrite !length_app, !length_fmap, L36. simpl. lia.
Qed.

Lemma complete_record_Some (answer : reply Info) symbol longName :
  complete_record answer = Some (symbol, longName) <->
  exists d, answer = Gives (Some d) /\
            d !! "symbol" = Some symbol /\ d !! "longName" = Some longName.
Proof.
  unfold complete_record. split.
  - destruct answer as [|[d|]]; try discriminate.
    destruct (d !! "longName") as [n|] eqn:En; [|discriminate].
    destruct (d !! "symbol") as [sy|] eqn:Es; [|discriminate].
    cbn [mbind option_bind]. intros [= <- <-]. now exists d.
  - intros (d & -> & Hs & Hn). now rewrite Hn, Hs.
Qed.

Lemma add_candidate_results candidate f :
  exists new, results (add_candidate candidate f) = results f ++ new.
Proof.
  destruct candidate as [[symbol longName]|]; simpl.
  - case_bool_decide; [eexists; reflexivity|exists []; now rewrite app_nil_r].
  - exists []. now rewrite app_nil_r.
Qed.

Lemma sweep_frame_results (pv : Provider) log tickers f :
  exists new, results (sweep_frame pv log tickers f) = results f ++ new.
Proof.
  revert log f. induction tickers as [|t rest IH]; intros log f; simpl.
  - exists []. now rewrite app_nil_r.
  - destruct (IH (log ++ [CallInfo t])
                 (add_candidate (complete_record (info_of pv log t)) f)) as [n2 E2].
    destruct (add_candidate_results (complete_record (info_of pv log t)) f) as [n1 E1].
    exists (n1 ++ n2). now rewrite E2, E1, app_assoc.
Qed.

Lemma add_candidate_recorded candidate f :
  recorded f -> recorded (add_candidate candidate f).
Proof.
  intros Hf. destruct candidate as [[symbol longName]|]; simpl; [|assumption].
  case_bool_decide; [|assumption].
  intros x. simpl. rewrite fmap_app, elem_of_app, elem_of_union, elem_of_singleton.
  intros [->|Hx]; [right; now left|left; now apply Hf].
Qed.

Lemma add_candidate_has_symbol symbol longName f :
  recorded f ->
  symbol ∈ fst <$> results (add_candidate (Some (symbol, longName)) f).
Proof.
  intros Hf. simpl. case_bool_decide as Hnew.
  - simpl. rewrite fmap_app, elem_of_app. right. now left.
  - apply Hf. exact Hnew.
Qed.

Lemma sweep_frame_sound (pv : Provider) log tickers f symbol longName :
  (symbol, longName) ∈ results (sweep_frame pv log tickers f) ->
  (symbol, longName) ∈ results f \/
  exists pre ticker post,
    tickers = pre ++ ticker :: post /\
    complete_record (info_of pv (log ++ (CallInfo <$> pre)) ticker)
      = Some (symbol, longName).
Proof.
  revert log f. induction tickers as [|t rest IH]; intros log f; simpl.
  - now left.
  - intros H. apply IH in H as [H|(pre & ticker & post & -> & H)].
    + destruct (complete_record (info_of pv log t)) as [[sy n]|] eqn:E;
        simpl in H; [|now left].
      case_bool_decide; [|now left].
      simpl in H. apply elem_of_app in H as [H|H]; [now left|].
      apply list_elem_of_singleton in H. injection H as -> ->.
      right. exists [], t, rest. simpl. now rewrite app_nil_r.
    + right. exists (t :: pre), ticker, post. simpl.
      now rewrite <- app_assoc in H.
Qed.

Lemma sweep_frame_complete (pv : Provider) log pre ticker post f symbol longName :
  recorded f ->
  complete_record (info_of pv (log ++ (CallInfo <$> pre)) ticker)
    = Some (symbol, longName) ->
  symbol ∈ fst <$> results (sweep_frame pv log (pre ++ ticker :: post) f).
Proof.
  revert log f. induction pre as [|t pre IH]; intros log f Hf H.
  - simpl in *. rewrite app_nil_r in H. rewrite H.
    destruct (sweep_frame_results pv (log ++ [CallInfo ticker]) post
                (add_candidate (Some (symbol, longName)) f)) as [new ->].
    rewrite fmap_app, elem_of_app. left. now apply add_candidate_has_symbol.
  - simpl. apply IH; [now apply add_candidate_recorded|].
    simpl in H. now rewrite <- app_assoc.
Qed.

(** X2.  What the variation sweep (lines 123-147) finds: every candidate
    is the resolved symbol and the display name of the record that answered
    one of the probes, and every symbol that a probe resolved with a
    display name is among the candidates. *)
Theorem sweep_finds_what_probes_resolve (pv : Provider) (query : string)
    (log : list Call) :
  exists found log',
    tier2 pv query log = (Ret found, log') /\
    (forall symbol longName,
        (symbol, longName) ∈ found ->
        exists pre ticker post d,
          sweep_tickers query = pre ++ ticker :: post /\
          info_of pv (log ++ (CallInfo <$> pre)) ticker = Gives (Some d) /\
          d !! "symbol" = Some symbol /\
          d !! "longName" = Some longName) /\
    (forall pre ticker post d symbol longName,
        sweep_tickers query = pre ++ ticker :: post ->
        info_of pv (log ++ (CallInfo <$> pre)) ticker = Gives (Some d) ->
        d !! "symbol" = Some symbol ->
        d !! "longName" = Some longName ->
        symbol ∈ fst <$> found).
Proof.
  rewrite tier2_eq. eexists _, _. split; [reflexivity|]. split.
  - intros symbol longName H.
    apply sweep_frame_sound in H as [H|(pre & ticker & post & E & H)];
      [inversion H|].
    apply complete_record_Some in H as (d & Hi & Hs & Hn).
    now exists pre, ticker, post, d.
  - intros pre ticker post d symbol longName E Hi Hs Hn. rewrite E.
    apply (sweep_frame_complete pv log pre ticker post no_results symbol longName).
    + intros x Hx. apply elem_of_empty in Hx. contradiction.
    + apply complete_record_Some. now exists d.
Qed.

Lemma sweep_finds_what_probes_resolve_witness :
  exists found log',
    tier2 two_listings "aapl" [] = (Ret found, log') /\
    "AAPL" ∈ fst <$> found.
Proof.
  destruct (sweep_finds_what_probes_resolve two_listings "aapl" [])
    as (found & log' & E & _ & H).
  exists found, log'. split; [exact E|].
  apply (H (take 6 (sweep_tickers "aapl")) "AAPL" (drop 7 (sweep_tickers "aapl"))
           {[ "symbol" := "AAPL"; "longName" := "Apple Inc." ]} "AAPL" "Apple Inc.").
  - vm_compute. reflexivity.
  - vm_compute. reflexivity.
  - vm_compute. reflexivity.
  - vm_compute. reflexivity.
Defined.

(** ** Movers Ranker *)

Lemma watchlist_calls_shape (pv : Provider) log watchlist :
  let calls := watchlist_calls pv log watchlist in
  filter (fun c => is_history_call c = true) calls = history_call <$> watchlist /\
  filter (fun c => is_info_call c = true) calls `sublist_of` CallInfo <$> watchlist /\
  (length watchlist <= length calls <= 2 * length watchlist)%nat.
Proof.
  cbv zeta. revert log.
  induction watchlist as [|symbol rest IH]; intros log.
  - simpl. repeat split; try constructor; lia.
  - cbn [watchlist_calls].
    destruct (IH (log ++ mover_calls pv log symbol)) as (Hh & Hi & Hl).
    remember (watchlist_calls pv (log ++ mover_calls pv log symbol) rest) as later.
    clear Heqlater IH. unfold mover_calls, history_call in *.
    destruct (history_of pv log symbol "2d" None); cbn [app].
    + rewrite !filter_cons.
      rewrite decide_True by reflexivity. rewrite decide_False by discriminate.
      rewrite Hh. split; [reflexivity|]. split; [apply sublist_cons, Hi|].
      simpl. lia.
    + rewrite !filter_cons.
      rewrite decide_True by reflexivity. rewrite decide_False by discriminate.
      rewrite decide_False by discriminate. rewrite decide_True by reflexivity.
      rewrite Hh. split; [reflexivity|]. split; [apply sublist_skip, Hi|].
      simpl. lia.
Qed.

(** X7.  [get_top_movers] (lines 60-87) asks the history of every
    watchlist symbol once, in watchlist order, and reads [stock.info] at
    most once per symbol, in the same order: between one and two calls per
    symbol, all added to the log.  When the provider is down it makes the
    history calls only. *)
Theorem movers_call_budget :
  (forall (pv : Provider) (watchlist : list string) (log : list Call),
      exists calls,
        snd (rank pv watchlist log) = log ++ calls /\
        filter (fun c => is_history_call c = true) calls
          = history_call <$> watchlist /\
        filter (fun c => is_info_call c = true) calls
          `sublist_of` CallInfo <$> watchlist /\
        (length watchlist <= length calls <= 2 * length watchlist)%nat)
  /\
  (forall (pv : Provider) (log : list Call),
      exists calls,
        snd (get_top_movers pv log) = log ++ calls /\
        (30 <= length calls <= 60)%nat)
  /\
  (forall (watchlist : list string) (log : list Call),
      snd (rank unreachable_provider watchlist log)
        = log ++ (history_call <$> watchlist)).
Proof.
  split; [|split].
  - intros pv watchlist log. exists (watchlist_calls pv log watchlist).
    split; [apply rank_log|]. apply watchlist_calls_shape.
  - intros pv log. exists (watchlist_calls pv log stocks).
    split; [apply rank_log|].
    destruct (watchlist_calls_shape pv log stocks) as (_ & _ & H). exact H.
  - intros watchlist log. rewrite rank_log. f_equal.
    revert log. induction watchlist as [|symbol rest IH]; intros log; simpl;
      [reflexivity|]. now rewrite IH.
Qed.

Lemma top_rows_elem_of (pv : Provider) watchlist log top_gainers top_losers log' :
  rank pv watchlist log = (Ret (top_gainers, top_losers), log') ->
  (forall r, r ∈ top_gainers ->
             r ∈ mover_quotes pv log watchlist /\ is_gainer r = true) /\
  (forall r, r ∈ top_losers ->
             r ∈ mover_quotes pv log watchlist /\ is_gainer r = false).
Proof.
  rewrite rank_eq. intros [= <- <- _].
  destruct (top_desc_perm
              (filter (fun r => is_gainer r = true) (mover_quotes pv log watchlist)))
    as (gs & Pg & -> & _).
  destruct (top_asc_perm
              (filter (fun r => is_gainer r = false) (mover_quotes pv log watchlist)))
    as (ls & Pl & -> & _).
  split; intros r Hr.
  - now apply (elem_of_top _ (fun r => is_gainer r = true) gs).
  - now apply (elem_of_top _ (fun r => is_gainer r = false) ls).
Qed.

Lemma mover_row_of_watchlist (pv : Provider) watchlist log r :
  r ∈ mover_quotes pv log watchlist ->
  mv_Symbol r ∈ watchlist /\
  mv_Change_Color r = (if is_gainer r then "green" else "red").
Proof.
  intros H. apply mover_quotes_elem_of in H as (pre & symbol & post & -> & H).
  apply mover_quote_Some in H
    as (older & previous & latest & d & longName & _ & _ & _ & ->).
  split; [|reflexivity].
  simpl. apply elem_of_app. right. now left.
Qed.

(** X8.  The rows that [get_top_movers] returns carry the tag of their
    list (lines 72-84): every top gainer is a watchlist symbol with a
    change% greater than 0 and the tag "green"; every top loser is a
    watchlist symbol with the tag "red" whose change% is not greater than
    0: zero or less when it is a number, and possibly NaN. *)
Theorem movers_tags_match_lists (pv : Provider) (watchlist : list string)
    (log : list Call) :
  exists top_gainers top_losers log',
    rank pv watchlist log = (Ret (top_gainers, top_losers), log') /\
    (forall r, r ∈ top_gainers ->
       mv_Symbol r ∈ watchlist /\
       num_pos (mv_ChangePct r) /\
       mv_Change_Color r = "green") /\
    (forall r, r ∈ top_losers ->
       mv_Symbol r ∈ watchlist /\
       ~ num_pos (mv_ChangePct r) /\
       (forall q, mv_ChangePct r = Finite q -> (q <= 0)%Q) /\
       mv_Change_Color r = "red").
Proof.
  destruct (rank pv watchlist log) as [out log'] eqn:E.
  pose proof (rank_eq pv watchlist log) as E'. cbv zeta in E'.
  rewrite E in E'. injection E' as -> ->.
  eexists _, _, _. split; [reflexivity|].
  assert (E' := rank_eq pv watchlist log). cbv zeta in E'.
  destruct (top_rows_elem_of _ _ _ _ _ _ E') as [Hg Hl].
  split; intros r Hr.
  - apply Hg in Hr as [Hin Hgain].
    apply mover_row_of_watchlist in Hin as [Hs Hc].
    rewrite Hc, Hgain. repeat split; [assumption|]. now apply num_gt0_spec.
  - apply Hl in Hr as [Hin Hgain].
    apply mover_row_of_watchlist in Hin as [Hs Hc].
    rewrite Hc, Hgain. split; [assumption|]. split; [|split; [|reflexivity]].
    + intros Hpos. apply num_gt0_spec in Hpos. unfold is_gainer in Hgain. congruence.
    + intros q Hq. unfold is_gainer in Hgain. rewrite Hq in Hgain.
      now apply Qgt0_false.
Qed.

Lemma movers_tags_match_lists_witness :
  exists top_gainers top_losers log',
    rank four_movers ["MSFT"; "AAPL"] [] = (Ret (top_gainers, top_losers), log') /\
    mv_Change_Color <$> top_gainers = ["green"] /\
    mv_Change_Color <$> top_losers = ["red"].
Proof.
  destruct (movers_tags_match_lists four_movers ["MSFT"; "AAPL"] [])
    as (tg & tl & log' & E & _ & _).
  exists tg, tl, log'. split; [exact E|].
  assert (E' : fst (rank four_movers ["MSFT"; "AAPL"] []) = Ret (tg, tl))
    by now rewrite E.
  vm_compute in E'. injection E' as <- <-. split; reflexivity.
Defined.

#[local] Instance descending_transitive : Transitive descending.
Proof. intros a b c Hab Hbc. unfold descending in *. eapply num_le_trans; eassumption. Qed.

#[local] Instance ascending_transitive : Transitive ascending.
Proof. intros a b c Hab Hbc. unfold ascending in *. eapply num_le_trans; eassumption. Qed.

Lemma beyond_top (R : relation MoverRow) `{!Transitive R}
    (sorted : list MoverRow) (r t : MoverRow) :
  Sorted R sorted -> r ∈ sorted -> r ∉ take 10 sorted -> t ∈ take 10 sorted ->
  R t r.
Proof.
  intros Hs Hr Hnot Ht.
  apply Sorted_StronglySorted in Hs; [|assumption].
  rewrite <- (take_drop 10 sorted) in Hs, Hr.
  apply elem_of_app in Hr as [Hr|Hr]; [contradiction|].
  eapply StronglySorted_app_1_elem_of; eassumption.
Qed.

(** X9.  The cut to ten keeps the extremes (lines 89-94): a qualifying
    gainer that is not among the top gainers has a change% no larger than
    that of every top gainer; and when no qualifying loser has a NaN
    change%, a qualifying loser that is not among the top losers has a
    change% no smaller than that of every top loser. *)
Theorem top_movers_are_extreme (pv : Provider) (watchlist : list string)
    (log : list Call) :
  let rows := mover_quotes pv log watchlist in
  exists top_gainers top_losers log',
    rank pv watchlist log = (Ret (top_gainers, top_losers), log') /\
    forall r t, r ∈ rows ->
      (is_gainer r = true -> r ∉ top_gainers -> t ∈ top_gainers ->
       num_le (mv_ChangePct r) (mv_ChangePct t)) /\
      (Forall (fun x => mv_ChangePct x <> NaN)
              (filter (fun x => is_gainer x = false) rows) ->
       is_gainer r = false -> r ∉ top_losers -> t ∈ top_losers ->
       num_le (mv_ChangePct t) (mv_ChangePct r)).
Proof.
  intros rows. rewrite rank_eq. cbv zeta. fold rows.
  destruct (top_desc_perm (filter (fun r => is_gainer r = true) rows))
    as (gs & Pg & -> & Sg).
  destruct (top_asc_perm (filter (fun r => is_gainer r = false) rows))
    as (ls & Pl & -> & Sl).
  eexists _, _, _. split; [reflexivity|].
  intros r t Hr. split.
  - intros Hgain Hnot Ht.
    apply (beyond_top descending gs r t); try assumption.
    + apply Sg, gainers_not_NaN.
    + rewrite Pg. now apply list_elem_of_filter.
  - intros Hn Hgain Hnot Ht.
    apply (beyond_top ascending ls r t); try assumption.
    + now apply Sl.
    + rewrite Pl. now apply list_elem_of_filter.
Qed.

Lemma top_movers_are_extreme_witness :
  let pv := uniform_provider [100%Q; 101%Q] (full_record "X" "Some Company") in
  exists top_gainers top_losers log',
    get_top_movers pv [] = (Ret (top_gainers, top_losers), log') /\
    num_le (mv_ChangePct (mover_row "ORCL" "Some Company" 100 101))
           (mv_ChangePct (mover_row "AAPL" "Some Company" 100 101)).
Proof.
  intros pv.
  destruct (top_movers_are_extreme pv stocks []) as (tg & tl & log' & E & H).
  exists tg, tl, log'. split; [exact E|].
  assert (E' : fst (rank pv stocks []) = Ret (tg, tl)) by now rewrite E.
  vm_compute in E'. injection E' as <- <-.
  refine (proj1 (H (mover_row "ORCL" "Some Company" 100 101)
                   (mover_row "AAPL" "Some Company" 100 101) _) _ _ _).
  - vm_compute. do 29 right. left.
  - vm_compute. reflexivity.
  - intros Hin. apply (list_elem_of_fmap_2 mv_Symbol) in Hin. revert Hin.
    apply (bool_decide_unpack _). vm_compute. exact I.
  - left.
Defined.

Lemma Sorted_keyed_fmap (R : num -> num -> Prop) (l : list MoverRow) :
  Sorted (fun a b => R (mv_ChangePct a) (mv_ChangePct b)) l ->
  Sorted (by_key R) (keyed <$> l).
Proof.
  induction 1 as [|x l Hl IH Hx]; simpl; constructor; [assumption|].
  destruct Hx; simpl; now constructor.
Qed.

Lemma snd_keyed (l : list MoverRow) : snd <$> (keyed <$> l) = l.
Proof. rewrite <- list_fmap_compose. apply list_fmap_id. Qed.

(** X10.  The two sorts of lines 90-91 are stable: gainers that come in
    descending order of change% already, in particular gainers that all
    have the same change%, are returned in watchlist order, and so are
    losers that come in ascending order already. *)
Theorem ties_keep_watchlist_order (pv : Provider) (watchlist : list string)
    (log : list Call) :
  let rows := mover_quotes pv log watchlist in
  exists top_gainers top_losers log',
    rank pv watchlist log = (Ret (top_gainers, top_losers), log') /\
    (Sorted descending (filter (fun r => is_gainer r = true) rows) ->
     top_gainers = take 10 (filter (fun r => is_gainer r = true) rows)) /\
    (Sorted ascending (filter (fun r => is_gainer r = false) rows) ->
     top_losers = take 10 (filter (fun r => is_gainer r = false) rows)).
Proof.
  intros rows. rewrite rank_eq. fold rows.
  eexists _, _, _. split; [reflexivity|]. split; intros Hs.
  - rewrite sorted_desc_of_sorted.
    + now rewrite <- fmap_take, snd_keyed.
    + now apply Sorted_keyed_fmap.
  - rewrite sorted_asc_of_sorted.
    + now rewrite <- fmap_take, snd_keyed.
    + now apply (Sorted_keyed_fmap num_le).
Qed.

Lemma ties_keep_watchlist_order_witness :
  let pv := uniform_provider [50%Q; 51%Q] (full_record "X" "Some Company") in
  exists top_gainers top_losers log',
    rank pv ["KO"; "AAPL"; "IBM"] [] = (Ret (top_gainers, top_losers), log') /\
    mv_Symbol <$> top_gainers = ["KO"; "AAPL"; "IBM"].
Proof.
  intros pv.
  destruct (ties_keep_watchlist_order pv ["KO"; "AAPL"; "IBM"] [])
    as (tg & tl & log' & E & Hg & _).
  exists tg, tl, log'. split; [exact E|].
  rewrite Hg; [vm_compute; reflexivity|].
  vm_compute. repeat constructor; discriminate.
Defined.

(** ** Index Snapshot and Quote Fetcher *)

Lemma change_pct_sign (p c : Q) :
  (0 < p)%Q -> ((0 < (c - p) / p * 100)%Q <-> (p < c)%Q).
Proof.
  intros Hp.
  assert (Hk : (0 < / p * 100)%Q).
  { apply Qmult_lt_0_compat; [now apply Qinv_lt_0_compat|reflexivity]. }
  assert (E : ((c - p) / p * 100 == (c - p) * (/ p * 100))%Q).
  { unfold Qdiv. now rewrite Qmult_assoc. }
  rewrite E. split.
  - intros H. destruct (Qlt_le_dec p c) as [Hlt|Hle]; [assumption|].
    exfalso. apply (Qlt_not_le _ _ H).
    assert (Hd : (c - p <= 0)%Q).
    { assert (H0 : (c + - p <= p + - p)%Q)
        by (apply Qplus_le_compat; [assumption|apply Qle_refl]).
      now rewrite Qplus_opp_r in H0. }
    assert (Hm : ((c - p) * (/ p * 100) <= 0 * (/ p * 100))%Q)
      by (apply Qmult_le_compat_r; [assumption|now apply Qlt_le_weak]).
    now rewrite Qmult_0_l in Hm.
  - intros H. apply Qmult_lt_0_compat; [|assumption].
    assert (H0 : (p + - p < c + - p)%Q)
      by (apply Qplus_lt_le_compat; [assumption|apply Qle_refl]).
    now rewrite Qplus_opp_r in H0.
Qed.

(** X11.  For an index whose previous close is positive, the tag of its
    row says which way the close moved (lines 27-37): "green" exactly when
    the latest close is above the previous one, "red" exactly when it is
    equal or below. *)
Theorem index_tag_follows_close (pv : Provider) (log : list Call)
    pre symbol name post (older : DataFrame) (previous latest : Bar) :
  indices = pre ++ (symbol, name) :: post ->
  history_of pv (log ++ (history_call ∘ fst <$> pre)) symbol "2d" None
    = Gives (older ++ [previous; latest]) ->
  (0 < Close previous)%Q ->
  exists rows log' row,
    get_world_indices pv log = (Ret rows, log') /\
    row ∈ rows /\
    ix_Index row = name /\
    (ix_Change_Color row = "green" <-> (Close previous < Close latest)%Q) /\
    (ix_Change_Color row = "red" <-> (Close latest <= Close previous)%Q).
Proof.
  intros Htable Hanswer Hp.
  unfold get_world_indices. rewrite snapshot_eq.
  exists (index_quotes pv log indices), (log ++ (history_call ∘ fst <$> indices)),
    (index_row name (Close previous) (Close latest)).
  split; [reflexivity|]. split.
  - apply index_quotes_elem_of. exists pre, symbol, name, post.
    split; [assumption|]. rewrite Hanswer. simpl. now rewrite last_two_snoc.
  - split; [reflexivity|]. cbn [index_row ix_Change_Color].
    rewrite fdiv_nonzero
      by (intros E0; rewrite E0 in Hp; discriminate Hp).
    cbn [times100 num_gt0].
    pose proof (change_pct_sign (Close previous) (Close latest) Hp) as Hsign.
    destruct (Qgt0 _) eqn:E.
    + apply Qgt0_spec in E. split; split; try discriminate; try tauto.
      intros Hle. apply Hsign in E. now apply Qlt_not_le in E.
    + split; split; try discriminate; try reflexivity.
      * intros Hlt. apply Hsign, Qgt0_spec in Hlt. congruence.
      * intros _. apply Qnot_lt_le. intros Hlt.
        apply Hsign, Qgt0_spec in Hlt. congruence.
Qed.

Lemma index_tag_follows_close_witness :
  let pv := book_provider {[ "^GSPC" := ([5000%Q; 5000%Q], None) ]} in
  exists rows log' row,
    get_world_indices pv [] = (Ret rows, log') /\
    row ∈ rows /\
    ix_Index row = "S&P 500" /\
    (ix_Change_Color row = "green" <-> (5000 < 5000)%Q) /\
    (ix_Change_Color row = "red" <-> (5000 <= 5000)%Q).
Proof.
  intros pv.
  refine (index_tag_follows_close pv [] [] "^GSPC" "S&P 500" (drop 1 indices)
            [] (session 5000) (session 5000) _ _ _); reflexivity.
Defined.

(** X13.  [get_stock_data] (lines 186-195) asks for minute bars exactly for
    the periods "1d" and "5d" and for daily bars otherwise, and it reads
    [stock.info] only after the history returned.  It gives up, with both
    outputs [None], exactly when one of the two calls raises: an empty
    history and a [None] record are handed to the caller as they are. *)
Theorem stock_data_raw_or_nothing (pv : Provider) (symbol period : string)
    (log : list Call) :
  exists interval out rest,
    get_stock_data pv symbol period log
      = (Ret out, log ++ CallHistory symbol period (Some interval) :: rest) /\
    (interval = "1m" <-> period = "1d" \/ period = "5d") /\
    (interval = "1d" <-> ~ (period = "1d" \/ period = "5d")) /\
    (rest = [] /\ history_of pv log symbol period (Some interval) = Fails \/
     rest = [CallInfo symbol]) /\
    (out = (None, None) <->
       history_of pv log symbol period (Some interval) = Fails \/
       info_of pv (log ++ [CallHistory symbol period (Some interval)]) symbol = Fails) /\
    (forall hist info,
       history_of pv log symbol period (Some interval) = Gives hist ->
       info_of pv (log ++ [CallHistory symbol period (Some interval)]) symbol = Gives info ->
       out = (Some hist, info)).
Proof.
  pose proof (get_stock_data_eq pv symbol period log) as E. cbv zeta in E.
  assert (Hint : intraday period = true <-> period = "1d" \/ period = "5d").
  { unfold intraday. rewrite bool_decide_eq_true.
    rewrite !elem_of_cons, elem_of_nil. tauto. }
  remember (if intraday period then "1m" else "1d") as interval eqn:Hi.
  assert (H1m : interval = "1m" <-> period = "1d" \/ period = "5d").
  { rewrite <- Hint. subst interval.
    destruct (intraday period); split; congruence. }
  assert (H1d : interval = "1d" <-> ~ (period = "1d" \/ period = "5d")).
  { rewrite <- Hint. subst interval.
    destruct (intraday period); split; congruence. }
  clear Hi Hint. exists interval.
  destruct (history_of pv log symbol period (Some interval)) as [|hist].
  - exists (None, None), []. split; [exact E|].
    split; [exact H1m|]. split; [exact H1d|].
    split; [left; auto|]. split; [split; auto|].
    intros h i Hh. discriminate.
  - destruct (info_of pv _ symbol) as [|info].
    + exists (None, None), [CallInfo symbol].
      split; [rewrite E; now rewrite <- app_assoc|].
      split; [exact H1m|]. split; [exact H1d|].
      split; [now right|]. split; [split; auto|].
      intros h i _ Hi. discriminate.
    + exists (Some hist, info), [CallInfo symbol].
      split; [rewrite E; now rewrite <- app_assoc|].
      split; [exact H1m|]. split; [exact H1d|].
      split; [now right|].
      split; [split; [discriminate|intros [H|H]; discriminate]|].
      intros h i [= <-] [= <-]. reflexivity.
Qed.

Lemma stock_data_raw_or_nothing_witness :
  let pv := uniform_provider [] None in
  get_stock_data pv "ZZZZ" "5d" []
  = (Ret (Some [], None), [CallHistory "ZZZZ" "5d" (Some "1m"); CallInfo "ZZZZ"]).
Proof.
  intros pv.
  destruct (stock_data_raw_or_nothing pv "ZZZZ" "5d" [])
    as (interval & out & rest & E & H1m & _ & _ & _ & H).
  rewrite (proj2 H1m (or_intror eq_refl)) in E, H.
  rewrite (H [] None eq_refl eq_refl) in E.
  rewrite E. f_equal.
  assert (E' : snd (get_stock_data pv "ZZZZ" "5d" [])
               = [] ++ CallHistory "ZZZZ" "5d" (Some "1m") :: rest) by now rewrite E.
  vm_compute in E'. injection E' as <-. reflexivity.
Defined.

(** ** The caller of the search in app.py *)

Lemma dict_of_lookup_elem {V} (pairs : list (string * V)) key v :
  dict_of pairs !! key = Some v -> (key, v) ∈ pairs.
Proof.
  unfold dict_of. intros H. apply elem_of_list_to_map_2 in H.
  rewrite elem_of_reverse in H. exact H.
Qed.

Lemma dict_of_lookup_key {V} (pairs : list (string * V)) key :
  key ∈ fst <$> pairs -> is_Some (dict_of pairs !! key).
Proof.
  unfold dict_of. intros H.
  destruct (list_to_map (reverse pairs) !! key) as [v|] eqn:E; [eauto|].
  apply not_elem_of_list_to_map in E. exfalso. apply E.
  rewrite fmap_reverse, elem_of_reverse. exact H.
Qed.

Lemma dict_of_lookup_NoDup {V} (pairs : list (string * V)) key v :
  NoDup (fst <$> pairs) -> (key, v) ∈ pairs -> dict_of pairs !! key = Some v.
Proof.
  unfold dict_of. intros Hnd H. apply elem_of_list_to_map_1.
  - rewrite fmap_reverse, reverse_Permutation. exact Hnd.
  - rewrite elem_of_reverse. exact H.
Qed.

Lemma search_stock_NoDup (pv : Provider) (query : string) (log : list Call) :
  exists candidates log',
    search_stock pv query log = (Ret candidates, log') /\
    NoDup (fst <$> candidates).
Proof.
  rewrite search_stock_eq.
  destruct (complete_record (info_of pv log query)) as [c|].
  - eexists _, _. split; [reflexivity|]. simpl. apply NoDup_singleton.
  - cbv zeta.
    destruct (sweep_frame_deduplicated pv (log ++ [CallInfo query])
                (sweep_tickers query) no_results no_results_deduplicated)
      as [Hnd _].
    destruct (results _) as [|c found].
    + eexists _, _. split; [reflexivity|].
      apply (sublist_NoDup _ (fst <$> common_stocks));
        [|apply fallback_rows_sublist].
      apply (bool_decide_unpack _). vm_compute. exact I.
    + eexists _, _. split; [reflexivity|assumption].
Qed.

Lemma choose_candidate_result (results : list Candidate) (selected : string) :
  NoDup (fst <$> results) ->
  selected ∈ option_label <$> results ->
  exists c, choose_candidate results selected = Ret (Some c) /\
            c ∈ results /\ option_label c = selected.
Proof.
  intros Hnd Hsel.
  assert (Hgen :
    exists c,
      match dict_of ((fun c => (option_label c, fst c)) <$> results) !! selected with
      | None => Raise KeyError
      | Some symbol =>
          match dict_of results !! symbol with
          | None => Raise KeyError
          | Some company_name => Ret (Some (symbol, company_name))
          end
      end = Ret (Some c) /\ c ∈ results /\ option_label c = selected).
  { destruct (dict_of_lookup_key
                ((fun c => (option_label c, fst c)) <$> results) selected)
      as [symbol Hopt].
    { rewrite <- list_fmap_compose. exact Hsel. }
    rewrite Hopt. apply dict_of_lookup_elem in Hopt.
    apply list_elem_of_fmap in Hopt as ([sy name] & [= -> ->] & Hc).
    exists (sy, name). simpl.
    rewrite (dict_of_lookup_NoDup results sy name Hnd Hc). auto. }
  destruct results as [|[symbol name] [|c2 rest]].
  - inversion Hsel.
  - exists (symbol, name). simpl. split; [reflexivity|]. split; [now left|].
    apply list_elem_of_singleton in Hsel. now symmetry.
  - exact Hgen.
Qed.

(** X14.  app.py, lines 143-157: the query is upper-cased and searched;
    whichever option of the select box the user picks, the symbol and the
    company name that are shown form one of the candidates that
    [search_stock] returned, the one whose label was picked; with no
    candidate, nothing is shown. *)
Theorem shown_candidate_is_a_result (pv : Provider) (text : string)
    (log : list Call) :
  exists results log',
    search_stock pv (upper text) log = (Ret results, log') /\
    (results = [] -> forall selected, choose_candidate results selected = Ret None) /\
    (forall selected, selected ∈ option_label <$> results ->
       exists c, choose_candidate results selected = Ret (Some c) /\
                 c ∈ results /\ option_label c = selected).
Proof.
  destruct (search_stock_NoDup pv (upper text) log) as (results & log' & E & Hnd).
  exists results, log'. split; [exact E|]. split.
  - intros -> selected. reflexivity.
  - intros selected. now apply choose_candidate_result.
Qed.

Lemma shown_candidate_is_a_result_witness :
  exists results log',
    search_stock two_listings (upper "aapl") [] = (Ret results, log') /\
    choose_candidate results "AAPL - Apple Inc." = Ret (Some ("AAPL", "Apple Inc.")).
Proof.
  destruct (shown_candidate_is_a_result two_listings "aapl" [])
    as (results & log' & E & _ & H).
  exists results, log'. split; [exact E|].
  assert (E' : fst (search_stock two_listings (upper "aapl") []) = Ret results)
    by now rewrite E.
  vm_compute in E'. injection E' as <-.
  destruct (H "AAPL - Apple Inc.") as (c & Hc & Hin & _); [left|].
  apply list_elem_of_singleton in Hin. now subst c.
Defined.

(** ** Key metrics *)

Lemma percent_is_not_NA (s : string) : s +:+ "%" <> "N/A".
Proof.
  intros H. destruct s as [|a [|b [|c [|d s]]]]; vm_compute in H; discriminate H.
Qed.

Lemma Qle_bool_false (x y : Q) : Qle_bool x y = false -> (y < x)%Q.
Proof.
  intros H. apply Qnot_le_lt. intros Hle. apply Qle_bool_iff in Hle. congruence.
Qed.

Lemma scaled_range (x scale : Q) :
  (0 < scale)%Q -> (scale <= x)%Q ->
  (x == x / scale * scale)%Q /\ (1 <= x / scale)%Q.
Proof.
  intros Hs Hx. split.
  - rewrite Qmult_comm. symmetry. apply Qmult_div_r.
    intros E. rewrite E in Hs. discriminate Hs.
  - apply Qle_shift_div_l; [assumption|]. now rewrite Qmult_1_l.
Qed.

(** X15.  [format_large_number] (lines 266-272) abbreviates a number of a
    million or more with the largest of the units T, B and M that it
    reaches: the figure in front of the unit is the number divided by the
    unit, is at least 1, and is below 1000 for B and M.  A number below a
    million, negative numbers of any size included, is rendered in full,
    and [None] raises [TypeError]. *)
Theorem format_large_number_units (fmt_2f fmt_0f_grouped : Q -> string) :
  (forall x : Q, (1000000 <= x)%Q ->
     exists figure unit scale,
       (unit, scale) ∈ [("T", 1000000000000%Q); ("B", 1000000000%Q); ("M", 1000000%Q)] /\
       format_large_number fmt_2f fmt_0f_grouped (PyNum x)
         = Ret (fmt_2f figure +:+ unit) /\
       figure = (x / scale)%Q /\
       (x == figure * scale)%Q /\
       (1 <= figure)%Q /\
       (unit <> "T" -> (figure < 1000)%Q))
  /\
  (forall x : Q, (x < 1000000)%Q ->
     format_large_number fmt_2f fmt_0f_grouped (PyNum x) = Ret (fmt_0f_grouped x))
  /\
  format_large_number fmt_2f fmt_0f_grouped PyNone = Raise TypeError.
Proof.
  split; [|split; [|reflexivity]].
  - intros x Hx. unfold format_large_number.
    destruct (Qle_bool 1000000000000 x) eqn:ET.
    { apply Qle_bool_iff in ET.
      destruct (scaled_range x 1000000000000) as [E H1]; [reflexivity|assumption|].
      exists (x / 1000000000000)%Q, "T", 1000000000000%Q.
      split; [left|]. repeat split; try assumption. congruence. }
    apply Qle_bool_false in ET.
    destruct (Qle_bool 1000000000 x) eqn:EB.
    { apply Qle_bool_iff in EB.
      destruct (scaled_range x 1000000000) as [E H1]; [reflexivity|assumption|].
      exists (x / 1000000000)%Q, "B", 1000000000%Q.
      split; [right; left|]. repeat split; try assumption.
      intros _. apply Qlt_shift_div_r; [reflexivity|exact ET]. }
    apply Qle_bool_false in EB.
    destruct (Qle_bool 1000000 x) eqn:EM.
    { apply Qle_bool_iff in EM.
      destruct (scaled_range x 1000000) as [E H1]; [reflexivity|assumption|].
      exists (x / 1000000)%Q, "M", 1000000%Q.
      split; [right; right; left|]. repeat split; try assumption.
      intros _. apply Qlt_shift_div_r; [reflexivity|exact EB]. }
    apply Qle_bool_false in EM. now apply Qlt_not_le in EM.
  - intros x Hx. unfold format_large_number.
    assert (H6 : Qle_bool 1000000 x = false).
    { destruct (Qle_bool 1000000 x) eqn:E; [|reflexivity].
      apply Qle_bool_iff in E. now apply Qlt_not_le in Hx. }
    assert (H9 : Qle_bool 1000000000 x = false).
    { destruct (Qle_bool 1000000000 x) eqn:E; [|reflexivity].
      apply Qle_bool_iff in E. exfalso. apply (Qlt_not_le _ _ Hx).
      eapply Qle_trans; [|exact E]. discriminate. }
    assert (H12 : Qle_bool 1000000000000 x = false).
    { destruct (Qle_bool 1000000000000 x) eqn:E; [|reflexivity].
      apply Qle_bool_iff in E. exfalso. apply (Qlt_not_le _ _ Hx).
      eapply Qle_trans; [|exact E]. discriminate. }
    now rewrite H12, H9, H6.
Qed.

Lemma format_large_number_units_witness :
  exists figure unit scale,
    (unit, scale) ∈ [("T", 1000000000000%Q); ("B", 1000000000%Q); ("M", 1000000%Q)] /\
    format_large_number (fun _ => "#") (fun _ => "#") (PyNum 999999999999)
      = Ret ("#" +:+ unit) /\
    figure = (999999999999 / scale)%Q /\
    (999999999999 == figure * scale)%Q /\
    (1 <= figure)%Q /\
    (unit <> "T" -> (figure < 1000)%Q).
Proof.
  refine (proj1 (format_large_number_units (fun _ => "#") (fun _ => "#"))
            999999999999%Q _).
  discriminate.
Defined.

Lemma get_or_zero_None (info : gmap string pyval) key :
  get_or_zero info key = PyNone <-> info !! key = Some PyNone.
Proof.
  unfold get_or_zero. destruct (info !! key) as [[|x]|]; simpl; split; congruence.
Qed.

Lemma format_large_number_outcome fmt_2f fmt_0f_grouped (value : pyval) :
  (value = PyNone /\
   format_large_number fmt_2f fmt_0f_grouped value = Raise TypeError) \/
  (value <> PyNone /\
   exists s, format_large_number fmt_2f fmt_0f_grouped value = Ret s).
Proof.
  destruct value as [|x]; [now left|right]. split; [discriminate|].
  unfold format_large_number.
  destruct (Qle_bool 1000000000000 x); [eauto|].
  destruct (Qle_bool 1000000000 x); [eauto|].
  destruct (Qle_bool 1000000 x); eauto.
Qed.

Lemma render_2f_outcome fmt_2f (value : pyval) :
  (value = PyNone /\ render_2f fmt_2f value = Raise TypeError) \/
  (value <> PyNone /\ exists s, render_2f fmt_2f value = Ret s).
Proof.
  destruct value as [|x]; [now left|right]. split; [discriminate|]. simpl. eauto.
Qed.

Lemma has_figure_false (info : gmap string pyval) key :
  has_figure info key = false <->
  info !! key = None \/ info !! key = Some PyNone \/
  exists y, info !! key = Some (PyNum y) /\ (y == 0)%Q.
Proof.
  unfold has_figure. destruct (info !! key) as [[|y]|]; try (split; [auto|reflexivity]).
  rewrite negb_false_iff, Qeq_bool_iff. split.
  - intros H. right. right. now exists y.
  - intros [H|[H|(y' & [= <-] & H)]]; try discriminate. exact H.
Qed.

(** X16.  [prepare_metrics_data] (lines 278-286) raises [TypeError] when
    one of the five figures that it always renders (market cap, P/E, 52
    week high and low, volume) is present with the value [None]; the
    default 0 only covers a missing key.  Otherwise it returns its six
    entries in their fixed order, and the dividend yield reads "N/A"
    exactly when the figure is missing, [None] or zero. *)
Theorem metrics_none_raises (fmt_2f fmt_0f_grouped : Q -> string)
    (info : gmap string pyval) :
  let figures := ["marketCap"; "trailingPE"; "fiftyTwoWeekHigh";
                  "fiftyTwoWeekLow"; "volume"] in
  ((exists key, key ∈ figures /\ info !! key = Some PyNone) ->
   prepare_metrics_data fmt_2f fmt_0f_grouped info = Raise TypeError)
  /\
  ((forall key, key ∈ figures -> info !! key <> Some PyNone) ->
   exists entries dividend,
     prepare_metrics_data fmt_2f fmt_0f_grouped info = Ret entries /\
     fst <$> entries = ["Market Cap"; "P/E Ratio"; "52 Week High";
                        "52 Week Low"; "Volume"; "Dividend Yield"] /\
     last entries = Some ("Dividend Yield", dividend) /\
     (dividend = "N/A" <->
        info !! "dividendYield" = None \/
        info !! "dividendYield" = Some PyNone \/
        exists y, info !! "dividendYield" = Some (PyNum y) /\ (y == 0)%Q)).
Proof.
  intros figures. unfold prepare_metrics_data.
  destruct (format_large_number_outcome fmt_2f fmt_0f_grouped
              (get_or_zero info "marketCap")) as [[N1 ->]|[N1 [s1 ->]]];
  destruct (render_2f_outcome fmt_2f (get_or_zero info "trailingPE"))
    as [[N2 ->]|[N2 [s2 ->]]];
  destruct (render_2f_outcome fmt_2f (get_or_zero info "fiftyTwoWeekHigh"))
    as [[N3 ->]|[N3 [s3 ->]]];
  destruct (render_2f_outcome fmt_2f (get_or_zero info "fiftyTwoWeekLow"))
    as [[N4 ->]|[N4 [s4 ->]]];
  destruct (format_large_number_outcome fmt_2f fmt_0f_grouped
              (get_or_zero info "volume")) as [[N5 ->]|[N5 [s5 ->]]];
  cbn [and_next];
  try (split; [reflexivity|];
       intros Hall; exfalso;
       first [ apply get_or_zero_None in N1; revert N1; apply Hall
             | apply get_or_zero_None in N2; revert N2; apply Hall
             | apply get_or_zero_None in N3; revert N3; apply Hall
             | apply get_or_zero_None in N4; revert N4; apply Hall
             | apply get_or_zero_None in N5; revert N5; apply Hall ];
       subst figures; set_solver).
  rewrite get_or_zero_None in N1, N2, N3, N4, N5.
  split.
  - intros (key & Hkey & Hnone). exfalso. subst figures.
    repeat (apply elem_of_cons in Hkey as [->|Hkey]; [congruence|]).
    inversion Hkey.
  - intros _. pose proof (has_figure_false info "dividendYield") as HF.
    destruct (has_figure info "dividendYield") eqn:Ef.
    + unfold has_figure in Ef. unfold get_or_zero.
      destruct (info !! "dividendYield") as [[|y]|]; try discriminate.
      cbn [default and_next]. eexists _, _. split; [reflexivity|].
      split; [reflexivity|]. split; [reflexivity|].
      rewrite <- HF.
      split; [intros H; now apply percent_is_not_NA in H|discriminate].
    + cbn [and_next]. eexists _, _. split; [reflexivity|].
      split; [reflexivity|]. split; [reflexivity|].
      rewrite <- HF. split; reflexivity.
Qed.

Lemma metrics_none_raises_witness :
  prepare_metrics_data (fun _ => "#") (fun _ => "#")
    {[ "marketCap" := PyNum 2500000000000; "trailingPE" := PyNone ]}
  = Raise TypeError.
Proof.
  refine (proj1 (metrics_none_raises (fun _ => "#") (fun _ => "#")
                   {[ "marketCap" := PyNum 2500000000000; "trailingPE" := PyNone ]}) _).
  exists "trailingPE". split; [right; left|].
  vm_compute. reflexivity.
Defined.

(** ** The title-cased variation *)

Lemma is_space_upper_ascii (c : ascii) : is_space_ascii (upper_ascii c) = is_space_ascii c.
Proof. destruct c as [[] [] [] [] [] [] [] []]; reflexivity. Qed.

Lemma is_space_lower_ascii (c : ascii) : is_space_ascii (lower_ascii c) = is_space_ascii c.
Proof. destruct c as [[] [] [] [] [] [] [] []]; reflexivity. Qed.

Lemma append_cons (c : ascii) (s t : string) : String c s +:+ t = String c (s +:+ t).
Proof. reflexivity. Qed.

Lemma split_go_word (w : string) (acc : list ascii) (s : string) :
  Forall (fun c => is_space_ascii c = false) (chars w) ->
  split_go acc (w +:+ s) = split_go (reverse (chars w) ++ acc) s.
Proof.
  revert acc. induction w as [|c w IH]; intros acc H.
  - reflexivity.
  - unfold chars in *. cbn [list_ascii_of_string] in *.
    apply Forall_cons in H as [Hc Hw].
    rewrite append_cons. cbn [split_go]. rewrite Hc, IH by assumption.
    now rewrite reverse_cons, <- app_assoc.
Qed.

Lemma split_go_flush (w : string) :
  w <> "" -> split_go (reverse (chars w)) "" = [w].
Proof.
  intros Hne. cbn [split_go]. rewrite reverse_involutive.
  unfold chars. rewrite string_of_list_ascii_of_string.
  destruct w as [|c w]; [congruence|].
  cbn [list_ascii_of_string]. rewrite reverse_cons.
  now destruct (reverse (list_ascii_of_string w)).
Qed.

Lemma split_join (words : list string) :
  Forall is_word words -> split (join " " words) = words.
Proof.
  unfold split. induction words as [|w words IH]; intros H; [reflexivity|].
  apply Forall_cons in H as [[Hne Hw] Hrest].
  destruct words as [|w2 words].
  - cbn [join]. rewrite <- (append_empty_r w) at 1.
    rewrite split_go_word, app_nil_r by assumption. now apply split_go_flush.
  - change (join " " (w :: w2 :: words))
      with (w +:+ String " " (join " " (w2 :: words))).
    rewrite split_go_word, app_nil_r by assumption.
    cbn [split_go]. change (is_space_ascii " ") with true. cbv iota.
    rewrite IH by assumption.
    pose proof (split_go_flush w Hne) as F. cbn [split_go] in F. now rewrite F.
Qed.

Lemma split_go_words (acc : list ascii) (s : string) :
  Forall (fun c => is_space_ascii c = false) acc ->
  Forall is_word (split_go acc s).
Proof.
  assert (Hflush : forall acc, Forall (fun c => is_space_ascii c = false) acc ->
            Forall is_word match acc with
                           | [] => []
                           | _ => [string_of_list_ascii (reverse acc)]
                           end).
  { intros [|c l] H; constructor; [|constructor].
    split.
    - intros E. apply (f_equal list_ascii_of_string) in E.
      rewrite list_ascii_of_string_of_list_ascii in E. simpl in E.
      apply (f_equal length) in E. rewrite length_reverse in E. discriminate E.
    - unfold chars. rewrite list_ascii_of_string_of_list_ascii.
      now apply Forall_reverse. }
  revert acc. induction s as [|c s IH]; intros acc H.
  - now apply Hflush.
  - cbn [split_go]. destruct (is_space_ascii c) eqn:E.
    + apply Forall_app. split; [now apply Hflush|apply IH; constructor].
    + apply IH. now constructor.
Qed.

Lemma capitalize_word (w : string) : is_word w -> is_word (capitalize w).
Proof.
  intros [Hne Hw]. destruct w as [|c w]; [congruence|].
  unfold chars in *. cbn [capitalize list_ascii_of_string] in *.
  apply Forall_cons in Hw as [Hc Hw]. split; [discriminate|].
  constructor; [now rewrite is_space_upper_ascii|].
  unfold lower. clear Hc Hne. induction w as [|d w IH]; [constructor|].
  cbn [map_string list_ascii_of_string] in *.
  apply Forall_cons in Hw as [Hd Hw].
  constructor; [now rewrite is_space_lower_ascii|now apply IH].
Qed.

(** X6.  The title-cased variation of line 120 is the words of the query,
    each capitalised, joined by single spaces: splitting it again gives
    back those capitalised words, whatever runs of whitespace the query
    had, and a query of whitespace only gives the empty string. *)
Theorem title_case_keeps_words (query : string) :
  let title := join " " (capitalize <$> split query) in
  split title = capitalize <$> split query /\
  (split query = [] -> title = "").
Proof.
  intros title. split.
  - apply split_join. apply Forall_fmap.
    eapply Forall_impl; [apply (split_go_words [] query); constructor|].
    intros w. apply capitalize_word.
  - intros E. subst title. now rewrite E.
Qed.

Lemma title_case_keeps_words_witness :
  join " " (capitalize <$> split "   ") = "" /\
  split (join " " (capitalize <$> split "  apple   inc ")) = ["Apple"; "Inc"].
Proof.
  split.
  - refine (proj2 (title_case_keeps_words "   ") _). reflexivity.
  - rewrite (proj1 (title_case_keeps_words "  apple   inc ")). reflexivity.
Defined.

Lemma sweep_frame_length (pv : Provider) log tickers f :
  (length (results (sweep_frame pv log tickers f))
   <= length (results f) + length tickers)%nat.
Proof.
  revert log f. induction tickers as [|t rest IH]; intros log f; simpl; [lia|].
  etransitivity; [apply IH|].
  destruct (complete_record (info_of pv log t)) as [[symbol longName]|]; simpl;
    [|lia].
  case_bool_decide; simpl; [rewrite length_app; simpl|]; lia.
Qed.

(** X12.  [search_stock] returns one candidate on a direct hit, at most 36
    from the sweep (one per probe) and at most 8 from the fallback table,
    whose candidates carry tickers of that table. *)
Theorem search_result_size (pv : Provider) (query : string) (log : list Call) :
  exists candidates log',
    search_stock pv query log = (Ret candidates, log') /\
    (length candidates <= 36)%nat /\
    match fst (tier1 pv query log) with
    | Ret (Some _) => length candidates = 1%nat
    | _ =>
        match fst (tier2 pv query (log ++ [CallInfo query])) with
        | Ret [] => (length candidates <= 8)%nat /\
                    fst <$> candidates ⊆ fst <$> common_stocks
        | _ => True
        end
    end.
Proof.
  rewrite search_stock_eq, tier1_eq, tier2_eq. cbn [fst].
  destruct (complete_record (info_of pv log query)) as [c|];
    cbn [fmap option_fmap option_map].
  - eexists _, _. split; [reflexivity|]. simpl. split; [lia|reflexivity].
  - cbv zeta.
    pose proof (sweep_frame_length pv (log ++ [CallInfo query])
                  (sweep_tickers query) no_results) as Hlen.
    rewrite length_sweep_tickers in Hlen.
    change (length (results no_results)) with 0%nat in Hlen.
    rewrite Nat.add_0_l in Hlen.
    destruct (results _) as [|c found].
    + eexists _, _. split; [reflexivity|].
      pose proof (fallback_rows_sublist pv
                    ((log ++ [CallInfo query]) ++ (CallInfo <$> sweep_tickers query))
                    query common_stocks) as Hsub.
      assert (H8 : (length (fallback_rows pv
                     ((log ++ [CallInfo query]) ++ (CallInfo <$> sweep_tickers query))
                     query common_stocks) <= 8)%nat).
      { apply sublist_length in Hsub. now rewrite !length_fmap in Hsub. }
      split; [lia|]. split; [exact H8|].
      now apply sublist_subseteq.
    + eexists _, _. split; [reflexivity|]. split; [exact Hlen|exact I].
Qed.
